(** * Lifecycle and persistence core of the agent framework

    A shallow embedding of three classes of the repository and the
    properties their documentation states about them:

    - [StateManager]    (graph/state_manager.py): the versioned state store,
    - [EngagementCache] (data/cache.py): the expiring key-value cache,
    - [AgentManager]    (utils/agent_manager.py): the agent registry,

    and of the checkpointing methods of [Framework] (utils/framework.py)
    that compose them.

    Conventions shared by the models.

    - A SQLite table with a [TEXT PRIMARY KEY] is a [gmap string row]; the
      [state_history] table, whose key is an [AUTOINCREMENT] rowid, is the
      list of its rows in rowid order.  A [SELECT] without [ORDER BY] over
      that table scans it in rowid order, so it is a [filter] of the list.
    - [json.dumps] followed by [json.loads] is the identity on the values the
      classes are given (JSON documents); a stored [TEXT] column is therefore
      the decoded value.  A state is a [Dict[str, Any]]: a [gmap string V]
      over an arbitrary type [V] of values with decidable equality.
    - A [datetime] is its number of microseconds on the wall clock that
      produced it.  Clock readings are arguments: [datetime.now()] of the
      Python side and [datetime('now')] of the SQL side are different clocks
      in the source and stay different arguments here.
    - Failures of the storage layer itself (I/O errors of sqlite3) are not
      modelled: every statement executes. *)

From stdpp Require Import gmap strings list fin_maps sorting.
From Stdlib Require Import ZArith Lia.

Local Open Scope Z_scope.

(** ** Exceptions and outcomes of a call *)

Inductive exn : Type :=
  | ValueError (msg : string)
  | KeyError (key : string)
  | AgentError (what : string).

Inductive outcome (R : Type) : Type :=
  | Returned (r : R)
  | Raised (e : exn).
Arguments Returned {R} r.
Arguments Raised {R} e.

(** [try: body except Exception: return fallback] *)
Definition try_except {R : Type} (body : outcome R) (fallback : R) : outcome R :=
  match body with
  | Returned r => Returned r
  | Raised _ => Returned fallback
  end.

(** SQLite's [datetime(t)] renders [t] as [YYYY-MM-DD HH:MM:SS]: the
    fractional seconds are dropped.  Two such strings compare as their whole
    seconds do. *)
Definition microseconds_per_second : Z := 1000000.
Definition sql_datetime (t : Z) : Z := t `div` microseconds_per_second.

(** ** The state store (graph/state_manager.py) *)

Module StateManager.
Section state_manager.
Context {V : Type} `{!EqDecision V}.

(** [agent_states (agent_id PRIMARY KEY, state, timestamp, version)] *)
Record current_row : Type := CurrentRow {
  row_state : gmap string V;
  row_timestamp : Z;
  row_version : Z;
}.

(** [state_history (id AUTOINCREMENT, agent_id, state, timestamp, version)] *)
Record history_row : Type := HistoryRow {
  h_agent_id : string;
  h_state : gmap string V;
  h_timestamp : Z;
  h_version : Z;
}.

Record database : Type := Database {
  agent_states : gmap string current_row;
  state_history : list history_row;
}.

(** The two tables right after [initialize_database] on a fresh file. *)
Definition empty_database : database :=
  {| agent_states := ∅; state_history := [] |}.

(** [save_state(agent_id, state)], with [now] the reading of
    [datetime.now()]. *)
Definition save_state (db : database) (agent_id : string)
    (state : gmap string V) (now : Z) : database :=
  let version :=
    match agent_states db !! agent_id with
    | Some result => row_version result + 1
    | None => 1
    end in
  {| agent_states :=
       <[agent_id := CurrentRow state now version]> (agent_states db);
     state_history :=
       state_history db ++ [HistoryRow agent_id state now version] |}.

(** [load_state(agent_id)] *)
Definition load_state (db : database) (agent_id : string)
    : option (gmap string V) :=
  match agent_states db !! agent_id with
  | Some result => Some (row_state result)
  | None => None
  end.

(** [SELECT state FROM state_history WHERE agent_id = ? AND version IN (?, ?)] *)
Definition select_versions (db : database) (agent_id : string)
    (version1 version2 : Z) : list (gmap string V) :=
  h_state <$>
    filter (λ r, h_agent_id r = agent_id ∧
                 (h_version r = version1 ∨ h_version r = version2))
           (state_history db).

(** The dictionary [{"added": .., "removed": .., "modified": ..}];
    a [modified] entry [(v1, v2)] is [{"from": v1, "to": v2}]. *)
Record differences : Type := Differences {
  added : gmap string V;
  removed : gmap string V;
  modified : gmap string (V * V);
}.

(** What [compare_states] returns: the empty dictionary [{}], which has
    none of the three entries, or the dictionary of differences. *)
Inductive comparison : Type :=
  | EmptyDict
  | Compared (d : differences).

Definition no_differences : differences :=
  {| added := ∅; removed := ∅; modified := ∅ |}.

(** One iteration of the loop of [compare_states].  [state2[key]] on a key
    that neither state has raises [KeyError]. *)
Definition compare_key (state1 state2 : gmap string V) (key : string)
    (d : differences) : outcome differences :=
  match state1 !! key with
  | None =>
      match state2 !! key with
      | Some v2 =>
          Returned {| added := <[key := v2]> (added d);
                      removed := removed d; modified := modified d |}
      | None => Raised (KeyError key)
      end
  | Some v1 =>
      match state2 !! key with
      | None =>
          Returned {| added := added d;
                      removed := <[key := v1]> (removed d);
                      modified := modified d |}
      | Some v2 =>
          if decide (v1 ≠ v2)
          then Returned {| added := added d; removed := removed d;
                           modified := <[key := (v1, v2)]> (modified d) |}
          else Returned d
      end
  end.

Fixpoint compare_keys (state1 state2 : gmap string V) (keys : list string)
    (d : differences) : outcome differences :=
  match keys with
  | [] => Returned d
  | key :: keys =>
      match compare_key state1 state2 key d with
      | Returned d' => compare_keys state1 state2 keys d'
      | Raised e => Raised e
      end
  end.

(** [compare_states(agent_id, version1, version2)].  The body is wrapped in
    [try ... except Exception: return {}]. *)
Definition compare_states (db : database) (agent_id : string)
    (version1 version2 : Z) : outcome comparison :=
  try_except
    (match select_versions db agent_id version1 version2 with
     | [state1; state2] =>
         match compare_keys state1 state2
                 (elements (dom state1 ∪ dom state2)) no_differences with
         | Returned d => Returned (Compared d)
         | Raised e => Raised e
         end
     | _ => Returned EmptyDict
     end)
    EmptyDict.

(** [clear_history(agent_id, before_date)].  A [datetime] is always true
    in a condition, so the second branch is taken exactly on [None]. *)
Definition clear_history (db : database) (agent_id : string)
    (before_date : option Z) : database :=
  match before_date with
  | Some before =>
      {| agent_states := agent_states db;
         state_history :=
           filter (λ r, ¬ (h_agent_id r = agent_id ∧
                           sql_datetime (h_timestamp r) < sql_datetime before))
                  (state_history db) |}
  | None =>
      {| agent_states := agent_states db;
         state_history :=
           filter (λ r, ¬ (h_agent_id r = agent_id)) (state_history db) |}
  end.

(** *** Derived notions used by the statements *)

(** The versions an agent has in the history, in rowid order. *)
Definition versions_of (agent_id : string) (h : list history_row) : list Z :=
  h_version <$> filter (λ r, h_agent_id r = agent_id) h.

(** One call of [save_state] and the clock reading it made. *)
Record save_call : Type := SaveCall {
  call_agent : string;
  call_state : gmap string V;
  call_now : Z;
}.

Definition run_saves (db : database) (calls : list save_call) : database :=
  foldl (λ db c, save_state db (call_agent c) (call_state c) (call_now c))
        db calls.

(** The stores the class can produce: from the fresh tables, by
    [save_state] and [clear_history] (the only methods that write). *)
Inductive reachable : database → Prop :=
  | reachable_empty : reachable empty_database
  | reachable_save db agent_id state now :
      reachable db → reachable (save_state db agent_id state now)
  | reachable_clear db agent_id before_date :
      reachable db → reachable (clear_history db agent_id before_date).

(** In rowid order the versions of an agent increase strictly, and none
    exceeds the version of the agent's current row. *)
Definition versioned (db : database) : Prop :=
  ∀ agent_id,
    StronglySorted Z.lt (versions_of agent_id (state_history db))
    ∧ ∀ v, v ∈ versions_of agent_id (state_history db) →
        ∃ cur, agent_states db !! agent_id = Some cur ∧ v ≤ row_version cur.

(** *** The history query *)

(** One dictionary [{"state": .., "timestamp": .., "version": ..}] of the
    list [get_state_history] returns. *)
Record history_entry : Type := HistoryEntry {
  e_state : gmap string V;
  e_timestamp : Z;
  e_version : Z;
}.

Definition entry_of (r : history_row) : history_entry :=
  HistoryEntry (h_state r) (h_timestamp r) (h_version r).

(** [ORDER BY timestamp DESC]: a row comes before the rows that are not
    newer.  SQL leaves the order of rows with equal timestamps open; the
    model takes the one of [merge_sort]. *)
Definition newer_first (r1 r2 : history_row) : Prop :=
  h_timestamp r2 ≤ h_timestamp r1.

#[export] Instance newer_first_dec : RelDecision newer_first :=
  λ r1 r2, decide (h_timestamp r2 ≤ h_timestamp r1).

(** [LIMIT ?]: SQLite puts no bound on the rows when the limit is
    negative. *)
Definition sql_limit {X : Type} (limit : Z) (rows : list X) : list X :=
  if decide (limit < 0) then rows else take (Z.to_nat limit) rows.

(** [limit: int = 10] *)
Definition default_limit : Z := 10.

(** [get_state_history(agent_id, limit)] *)
Definition get_state_history (db : database) (agent_id : string)
    (limit : Z) : list history_entry :=
  entry_of <$>
    sql_limit limit
      (merge_sort newer_first
         (filter (λ r, h_agent_id r = agent_id) (state_history db))).

End state_manager.
End StateManager.

(** ** The cache (data/cache.py) *)

Module EngagementCache.
Section engagement_cache.
Context {V : Type}.

(** [engagement_cache (key PRIMARY KEY, value, timestamp, expiry)] *)
Record cache_row : Type := CacheRow {
  c_value : V;
  c_timestamp : Z;
  c_expiry : Z;
}.

(** The object: [self.cache_duration] (seconds) and the table. *)
Record cache : Type := Cache {
  cache_duration : Z;
  engagement_cache : gmap string cache_row;
}.

(** [timedelta(seconds=s)] *)
Definition timedelta (seconds : Z) : Z := seconds * microseconds_per_second.

(** [set(key, value, expiry)], with [now] the reading of [datetime.now()].
    [expiry or self.cache_duration] takes the default on [None] and on [0]. *)
Definition expiry_time (c : cache) (expiry : option Z) (now : Z) : Z :=
  now + timedelta match expiry with
                  | Some e => if decide (e = 0) then cache_duration c else e
                  | None => cache_duration c
                  end.

Definition set (c : cache) (key : string) (value : V) (expiry : option Z)
    (now : Z) : cache :=
  {| cache_duration := cache_duration c;
     engagement_cache :=
       <[key := CacheRow value now (expiry_time c expiry now)]>
         (engagement_cache c) |}.

(** [get(key)], with [sql_now] the reading of SQLite's [datetime('now')]:
    [WHERE key = ? AND datetime('now') < datetime(expiry)]. *)
Definition get (c : cache) (key : string) (sql_now : Z) : option V :=
  match engagement_cache c !! key with
  | Some result =>
      if decide (sql_datetime sql_now < sql_datetime (c_expiry result))
      then Some (c_value result)
      else None
  | None => None
  end.

(** [delete(key)] *)
Definition delete (c : cache) (key : string) : cache :=
  {| cache_duration := cache_duration c;
     engagement_cache := base.delete key (engagement_cache c) |}.

(** [clear_expired()]:
    [DELETE ... WHERE datetime('now') >= datetime(expiry)]. *)
Definition clear_expired (c : cache) (sql_now : Z) : cache :=
  {| cache_duration := cache_duration c;
     engagement_cache :=
       filter (λ kr, ¬ (sql_datetime (c_expiry kr.2) ≤ sql_datetime sql_now))
              (engagement_cache c) |}.

(** *** Derived notions used by the statements *)

(** One call of a writing method and the clock reading it made. *)
Inductive call : Type :=
  | CallSet (key : string) (value : V) (expiry : option Z) (now : Z)
  | CallDelete (key : string)
  | CallClearExpired (sql_now : Z).





(** *** The metrics query *)

(** The dictionary [{"total_entries": .., "expired_entries": ..,
    "active_entries": ..}]. *)
Record cache_metrics : Type := CacheMetrics {
  total_entries : Z;
  expired_entries : Z;
  active_entries : Z;
}.

(** [get_metrics()], with [sql_now] the reading of [datetime('now')] in
    the second query. *)
Definition get_metrics (c : cache) (sql_now : Z) : cache_metrics :=
  let total := Z.of_nat (size (engagement_cache c)) in
  let expired :=
    Z.of_nat (size (filter
      (λ kr, sql_datetime (c_expiry kr.2) ≤ sql_datetime sql_now)
      (engagement_cache c))) in
  {| total_entries := total;
     expired_entries := expired;
     active_entries := total - expired |}.

End engagement_cache.
End EngagementCache.

(** ** The agent registry (utils/agent_manager.py) *)

(** A Python [dict] in insertion order, keys unique. *)
Fixpoint dict_get {A : Type} (d : list (string * A)) (key : string)
    : option A :=
  match d with
  | [] => None
  | (k, v) :: d => if decide (k = key) then Some v else dict_get d key
  end.

(** The methods the manager awaits on an agent. *)
Inductive method : Type := Initialize | Cleanup | GetState.

(** What an observer of a run sees, in order: the records the manager's
    logger emits ([self.logger.info]) and the agent methods it awaits
    (under the identity the manager looked the agent up by). *)
Inductive event : Type :=
  | LogInfo (msg : string)
  | Await (agent_id : string) (m : method).

(** The interface the manager relies on (agents/base_agent.py declares
    [initialize] and [cleanup] abstract; [get_state] is duck-typed).  An
    agent is a handle [A]; whatever its methods read and write lives in a
    world [W] outside the manager.  A method may change the world and then
    return or raise. *)
Class Agent (A W V : Type) : Type := {
  initialize : A → W → W * outcome unit;
  cleanup : A → W → W * outcome unit;
  get_state : A → W → W * outcome V;
}.

(** The other methods the manager awaits on an agent: [process_cycle()]
    (abstract in agents/base_agent.py), and the duck-typed
    [restore_state(state)] and [update_configuration(config)]. *)
Class AgentControl (A W V : Type) : Type := {
  process_cycle : A → W → W * outcome unit;
  agent_restore_state : A → V → W → W * outcome unit;
  agent_update_configuration : A → V → W → W * outcome unit;
}.

Module AgentManager.
Section agent_manager.
Context {A W V : Type} `{!Agent A W V}.

(** The fields of the object: [self.agents], [self.active_agents],
    [self.agent_metrics]. *)
Record agent_manager : Type := Manager {
  agents : list (string * A);
  active_agents : gset string;
  agent_metrics : gmap string (gmap string V);
}.

(** [AgentManager()] *)
Definition new_manager : agent_manager :=
  {| agents := []; active_agents := ∅; agent_metrics := ∅ |}.

(** A run: the manager, the agents' world, and what has been observed. *)
Record machine : Type := Machine {
  manager : agent_manager;
  world : W;
  trace : list event;
}.

(** A coroutine of the manager: it transforms the machine and returns or
    raises; after a raise the rest of the body does not run. *)
Definition M (R : Type) : Type := machine → machine * outcome R.

#[export] Instance M_ret : MRet M := λ R r s, (s, Returned r).
#[export] Instance M_bind : MBind M := λ R R' k m s,
  match m s with
  | (s', Returned r) => k r s'
  | (s', Raised e) => (s', Raised e)
  end.

Definition raise {R : Type} (e : exn) : M R := λ s, (s, Raised e).

Definition get_manager : M agent_manager := λ s, (s, Returned (manager s)).

Definition put_manager (m : agent_manager) : M unit := λ s,
  ({| manager := m; world := world s; trace := trace s |}, Returned tt).

(** [self.logger.info(msg)] *)
Definition log_info (msg : string) : M unit := λ s,
  ({| manager := manager s; world := world s;
      trace := trace s ++ [LogInfo msg] |}, Returned tt).

(** [await agent.m()] for the agent registered as [agent_id]. *)
Definition await {R : Type} (agent_id : string) (m : method)
    (call : W → W * outcome R) : M R := λ s,
  let '(w, r) := call (world s) in
  ({| manager := manager s; world := w;
      trace := trace s ++ [Await agent_id m] |}, r).

(** [for x in l: await body(x)] *)
Fixpoint for_each {X : Type} (body : X → M unit) (l : list X) : M unit :=
  match l with
  | [] => mret tt
  | x :: l => body x;; for_each body l
  end.

(** [register_agent(agent_id, agent)] *)
Definition register_agent (agent_id : string) (agent : A) : M unit :=
  m ← get_manager;
  match dict_get (agents m) agent_id with
  | Some _ =>
      raise (ValueError ("Agent " +:+ agent_id +:+ " already registered"))
  | None =>
      put_manager {| agents := agents m ++ [(agent_id, agent)];
                     active_agents := active_agents m;
                     agent_metrics := agent_metrics m |};;
      log_info ("Registered agent: " +:+ agent_id)
  end.

(** [start_agent(agent_id)] *)
Definition start_agent (agent_id : string) : M unit :=
  m ← get_manager;
  match dict_get (agents m) agent_id with
  | None => raise (ValueError ("Agent " +:+ agent_id +:+ " not found"))
  | Some agent =>
      await agent_id Initialize (initialize agent);;
      m ← get_manager;
      put_manager {| agents := agents m;
                     active_agents := {[agent_id]} ∪ active_agents m;
                     agent_metrics := agent_metrics m |};;
      log_info ("Started agent: " +:+ agent_id)
  end.

(** [stop_agent(agent_id)].  [self.agents[agent_id]] and
    [self.active_agents.remove(agent_id)] raise [KeyError] on a missing
    key. *)
Definition stop_agent (agent_id : string) : M unit :=
  m ← get_manager;
  if decide (agent_id ∉ active_agents m) then mret tt
  else
    match dict_get (agents m) agent_id with
    | None => raise (KeyError agent_id)
    | Some agent =>
        await agent_id Cleanup (cleanup agent);;
        m ← get_manager;
        (if decide (agent_id ∈ active_agents m)
         then put_manager {| agents := agents m;
                             active_agents := active_agents m ∖ {[agent_id]};
                             agent_metrics := agent_metrics m |}
         else raise (KeyError agent_id));;
        log_info ("Stopped agent: " +:+ agent_id)
    end.

(** [start_agents()]: [for agent_id in self.agents]. *)
Definition start_agents : M unit :=
  log_info "Starting agents";;
  m ← get_manager;
  for_each start_agent (agents m).*1.

(** [stop_agents()]: [for agent_id in list(self.active_agents)].  Python
    leaves the order of a set open; the model takes the order of
    [elements]. *)
Definition stop_agents : M unit :=
  log_info "Stopping agents";;
  m ← get_manager;
  for_each stop_agent (elements (active_agents m)).

(** The loop of [get_states]: [states[agent_id] = await agent.get_state()]. *)
Fixpoint get_states_loop (items : list (string * A))
    (states : gmap string V) : M (gmap string V) :=
  match items with
  | [] => mret states
  | (agent_id, agent) :: items =>
      v ← await agent_id GetState (get_state agent);
      get_states_loop items (<[agent_id := v]> states)
  end.

(** [get_states()] *)
Definition get_states : M (gmap string V) :=
  m ← get_manager;
  get_states_loop (agents m) ∅.

(** *** Derived notions used by the statements *)

(** The identities of the registry, in registration order. *)
Definition registered (m : agent_manager) : list string := (agents m).*1.

(** What a successful [start_agent] and [stop_agent] leave in the trace. *)
Definition started (agent_id : string) : list event :=
  [Await agent_id Initialize; LogInfo ("Started agent: " +:+ agent_id)].
Definition stopped (agent_id : string) : list event :=
  [Await agent_id Cleanup; LogInfo ("Stopped agent: " +:+ agent_id)].

(** The invariants of the object: a dictionary has each key once, and only
    [start_agent], which checks the registry, adds to the active set. *)
Definition well_formed (m : agent_manager) : Prop :=
  NoDup (registered m)
  ∧ ∀ agent_id, agent_id ∈ active_agents m → agent_id ∈ registered m.

(** A run from a fresh manager, and the machine a coroutine leaves. *)
Definition boot (w : W) : machine :=
  {| manager := new_manager; world := w; trace := [] |}.
Definition exec {R : Type} (c : M R) (s : machine) : machine := (c s).1.

End agent_manager.

(** *** The rest of the class *)

Section agent_manager_control.
Context {A W V : Type} `{!Agent A W V} `{!AgentControl A W V}.
Implicit Types (m : @agent_manager A V).
Local Abbreviation M := (@M A W V).
Local Abbreviation machine := (@machine A W V).

(** How [datetime.now().isoformat()] sits among the values of a metrics
    dictionary. *)
Variable isoformat : Z → V.

(** [await agent.m()] for a method the trace does not follow: the call
    acts on the world and returns or raises. *)
Definition await_untraced {R : Type} (call : W → W * outcome R) : M R :=
  λ s,
  let '(w, r) := call (world s) in
  ({| manager := manager s; world := w; trace := trace s |}, r).

(** [get_agent(agent_id)]: [self.agents.get(agent_id)] *)
Definition get_agent (agent_id : string) : M (option A) :=
  m ← get_manager;
  mret (dict_get (agents m) agent_id).

(** [get_agent_count()] and [get_active_agent_count()] *)
Definition get_agent_count m : nat := length (agents m).
Definition get_active_agent_count m : nat := size (active_agents m).

(** What [process_event] reads of its event: [event.get("type")] and
    [event.get("agent_id")], each [None] when the key is missing. *)
Record agent_event : Type := AgentEvent {
  event_type : option string;
  event_agent_id : option string;
}.

(** [process_event(event)].  [not agent_id] holds for [None] and for the
    empty string. *)
Definition process_event (ev : agent_event) : M unit :=
  m ← get_manager;
  match event_agent_id ev with
  | None => mret tt
  | Some agent_id =>
      if decide (agent_id = "" ∨ dict_get (agents m) agent_id = None)
      then mret tt
      else
        match dict_get (agents m) agent_id with
        | None => raise (KeyError agent_id)
        | Some agent =>
            if decide (event_type ev = Some "start")
            then start_agent agent_id
            else if decide (event_type ev = Some "stop")
            then stop_agent agent_id
            else if decide (event_type ev = Some "update")
            then await_untraced (process_cycle agent)
            else mret tt
        end
  end.

(** The status [get_metrics] reports for one agent:
    [{"active": .., "last_update": ..}]. *)
Record agent_status : Type := AgentStatus {
  status_active : bool;
  status_last_update : option V;
}.

(** The dictionary [get_metrics] returns. *)
Record manager_metrics : Type := ManagerMetrics {
  total_agents : nat;
  active_agents_count : nat;
  agent_statuses : gmap string agent_status;
}.

(** The loop of [get_metrics] over [self.agents.items()].
    [self.agent_metrics.get(agent_id, {}).get("last_update")] is [None]
    when either key is missing. *)
Fixpoint agent_statuses_loop m (items : list (string * A))
    (statuses : gmap string agent_status) : gmap string agent_status :=
  match items with
  | [] => statuses
  | (agent_id, _) :: items =>
      agent_statuses_loop m items
        (<[agent_id :=
             {| status_active := bool_decide (agent_id ∈ active_agents m);
                status_last_update :=
                  default ∅ (agent_metrics m !! agent_id) !! "last_update" |}]>
           statuses)
  end.

(** [get_metrics()] *)
Definition get_metrics : M manager_metrics :=
  m ← get_manager;
  mret {| total_agents := get_agent_count m;
          active_agents_count := get_active_agent_count m;
          agent_statuses := agent_statuses_loop m (agents m) ∅ |}.

(** [update_metrics(agent_id, metrics)], with [now] the reading of
    [datetime.now()]: [{**metrics, "last_update": now.isoformat()}]. *)
Definition update_metrics (agent_id : string) (metrics : gmap string V)
    (now : Z) : M unit :=
  m ← get_manager;
  put_manager
    {| agents := agents m;
       active_agents := active_agents m;
       agent_metrics :=
         <[agent_id := <["last_update" := isoformat now]> metrics]>
           (agent_metrics m) |}.

(** [restore_state(states)]: [for agent_id, state in states.items()], the
    items of the dictionary in its order. *)
Definition restore_state (states : list (string * V)) : M unit :=
  for_each
    (λ item : string * V,
       m ← get_manager;
       match dict_get (agents m) item.1 with
       | Some agent => await_untraced (agent_restore_state agent item.2)
       | None => mret tt
       end)
    states.

(** [update_configuration(config)] *)
Definition update_configuration (config : list (string * V)) : M unit :=
  for_each
    (λ item : string * V,
       m ← get_manager;
       match dict_get (agents m) item.1 with
       | Some agent =>
           await_untraced (agent_update_configuration agent item.2)
       | None => mret tt
       end)
    config.

(** *** Derived notions used by the statements *)

(** One call on the manager by a caller that goes on after an exception. *)
Inductive command : Type :=
  | DoRegister (agent_id : string) (agent : A)
  | DoStart (agent_id : string)
  | DoStop (agent_id : string)
  | DoStartAll
  | DoStopAll
  | DoEvent (ev : agent_event)
  | DoGetStates
  | DoRestore (states : list (string * V))
  | DoConfigure (config : list (string * V))
  | DoUpdateMetrics (agent_id : string) (metrics : gmap string V) (now : Z).

Definition run_command (c : command) (s : machine) : machine :=
  match c with
  | DoRegister agent_id agent => exec (register_agent agent_id agent) s
  | DoStart agent_id => exec (start_agent agent_id) s
  | DoStop agent_id => exec (stop_agent agent_id) s
  | DoStartAll => exec start_agents s
  | DoStopAll => exec stop_agents s
  | DoEvent ev => exec (process_event ev) s
  | DoGetStates => exec get_states s
  | DoRestore states => exec (restore_state states) s
  | DoConfigure config => exec (update_configuration config) s
  | DoUpdateMetrics agent_id metrics now =>
      exec (update_metrics agent_id metrics now) s
  end.

Definition run_commands (s : machine) (cs : list command) : machine :=
  foldl (λ s c, run_command c s) s cs.

End agent_manager_control.
End AgentManager.

(** ** The composition root (utils/framework.py)

    The methods of [Framework] that checkpoint and restore: [save_states],
    [load_states] and [stop], over the components they touch (the agent
    manager, the state store, the progress tracker and the logger), and
    the two methods of [ProgressTracker] (utils/progress.py) they call. *)

Module Framework.
Import AgentManager.
Section framework.
Context {A W V : Type} `{!Agent A W V} `{!AgentControl A W V}.

(** The JSON values [{}] and [[]]. *)
Variables (empty_dict empty_list : V).

(** The fields of a [ProgressTracker] that its state is made of, each a
    JSON value. *)
Record progress_tracker : Type := ProgressTracker {
  progress_metrics : V;
  progress_history : V;
  progress_config : V;
}.

(** [ProgressTracker.get_state()] *)
Definition progress_get_state (p : progress_tracker) : gmap string V :=
  <["config" := progress_config p]>
    (<["history" := progress_history p]>
       {["metrics" := progress_metrics p]}).

(** [ProgressTracker.restore_state(state)]: [state.get(key, default)]. *)
Definition progress_restore_state (state : gmap string V)
    : progress_tracker :=
  {| progress_metrics := default empty_dict (state !! "metrics");
     progress_history := default empty_list (state !! "history");
     progress_config := default empty_dict (state !! "config") |}.

(** A record of the framework's logger: [self.logger.info(msg)], or
    [self.logger.error(f"{msg}: {e}")] for the exception [e]. *)
Inductive log_record : Type :=
  | Info (msg : string)
  | Error (msg : string) (e : exn).

(** The object: [self.agent_manager] (with the world its agents live in),
    [self.state_manager], [self.progress_tracker], and what its logger
    has emitted. *)
Record framework : Type := FrameworkState {
  fw_agent_manager : @machine A W V;
  fw_state_manager : @StateManager.database V;
  fw_progress_tracker : progress_tracker;
  fw_log : list log_record;
}.

(** [save_states()], with the clock readings of its two [save_state]
    calls.  The body is wrapped in [try ... except Exception], which logs
    and does not raise. *)
Definition save_states (fw : framework) (now_agents now_progress : Z)
    : framework :=
  match get_states (fw_agent_manager fw) with
  | (am, Returned agent_states) =>
      let db1 := StateManager.save_state (fw_state_manager fw)
                   "agents" agent_states now_agents in
      let progress_state := progress_get_state (fw_progress_tracker fw) in
      let db2 := StateManager.save_state db1
                   "progress" progress_state now_progress in
      {| fw_agent_manager := am;
         fw_state_manager := db2;
         fw_progress_tracker := fw_progress_tracker fw;
         fw_log := fw_log fw |}
  | (am, Raised e) =>
      {| fw_agent_manager := am;
         fw_state_manager := fw_state_manager fw;
         fw_progress_tracker := fw_progress_tracker fw;
         fw_log := fw_log fw ++ [Error "Failed to save states" e] |}
  end.

(** [load_states()].  [if agent_states:] is false for [None] and for the
    empty dictionary.  The items of the loaded dictionary are taken in the
    order of [map_to_list]. *)
Definition load_states (fw : framework) : framework :=
  let restored :=
    match StateManager.load_state (fw_state_manager fw) "agents" with
    | Some agent_states =>
        if decide (agent_states = ∅)
        then (fw_agent_manager fw, Returned tt)
        else restore_state (map_to_list agent_states) (fw_agent_manager fw)
    | None => (fw_agent_manager fw, Returned tt)
    end in
  match restored with
  | (am, Returned _) =>
      {| fw_agent_manager := am;
         fw_state_manager := fw_state_manager fw;
         fw_progress_tracker :=
           match StateManager.load_state (fw_state_manager fw) "progress" with
           | Some progress_state =>
               if decide (progress_state = ∅)
               then fw_progress_tracker fw
               else progress_restore_state progress_state
           | None => fw_progress_tracker fw
           end;
         fw_log := fw_log fw |}
  | (am, Raised e) =>
      {| fw_agent_manager := am;
         fw_state_manager := fw_state_manager fw;
         fw_progress_tracker := fw_progress_tracker fw;
         fw_log := fw_log fw ++ [Error "Failed to load states" e] |}
  end.

(** [stop()]: the [except] clause logs and raises again. *)
Definition stop (fw : framework) (now_agents now_progress : Z)
    : framework * outcome unit :=
  let log := fw_log fw ++ [Info "Stopping Skylark Framework"] in
  match stop_agents (fw_agent_manager fw) with
  | (am, Returned _) =>
      let fw' := save_states
                   {| fw_agent_manager := am;
                      fw_state_manager := fw_state_manager fw;
                      fw_progress_tracker := fw_progress_tracker fw;
                      fw_log := log |}
                   now_agents now_progress in
      ({| fw_agent_manager := fw_agent_manager fw';
          fw_state_manager := fw_state_manager fw';
          fw_progress_tracker := fw_progress_tracker fw';
          fw_log := fw_log fw' ++ [Info "Framework stopped successfully"] |},
       Returned tt)
  | (am, Raised e) =>
      ({| fw_agent_manager := am;
          fw_state_manager := fw_state_manager fw;
          fw_progress_tracker := fw_progress_tracker fw;
          fw_log := log ++ [Error "Framework stop failed" e] |},
       Raised e)
  end.

End framework.
End Framework.

(** ** Scenarios

    Concrete stores, caches and managers on which the statements below are
    evaluated.  Values are integers. *)

Module Scenario.
Import AgentManager.

(** Two saves for one agent: versions 1 and 2; the second state adds the
    key ["b"]. *)
Definition one_save : @StateManager.database Z :=
  StateManager.save_state StateManager.empty_database
    "agent" {["a" := 1]} 1500000.
Definition two_saves : @StateManager.database Z :=
  StateManager.save_state one_save
    "agent" (<["b" := 2]> {["a" := 1]}) 2500000.

(** [EngagementCache()], then [set("k", 7, 1)] at half a second past the
    epoch: the entry expires at 1.5 s. *)
Definition fresh_cache : @EngagementCache.cache Z :=
  {| EngagementCache.cache_duration := 3600;
     EngagementCache.engagement_cache := ∅ |}.
Definition cache_k : @EngagementCache.cache Z :=
  EngagementCache.set fresh_cache "k" 7 (Some 1) 500000.

(** An agent that behaves as scripted; the world counts the calls of
    [initialize()] made so far. *)
Record scripted : Type := Scripted {
  initialize_raises : bool;
  cleanup_raises : bool;
  exported : Z;
}.

#[export] Instance scripted_agent : Agent scripted nat Z := {|
  initialize a w :=
    (S w, if initialize_raises a
          then Raised (AgentError "initialize") else Returned tt);
  cleanup a w :=
    (w, if cleanup_raises a
        then Raised (AgentError "cleanup") else Returned tt);
  get_state a w := (w, Returned (exported a));
|}.

(** Its other methods return and leave the world alone. *)
#[export] Instance scripted_control : AgentControl scripted nat Z := {|
  process_cycle a w := (w, Returned tt);
  agent_restore_state a state w := (w, Returned tt);
  agent_update_configuration a config w := (w, Returned tt);
|}.

Definition steady : scripted := Scripted false false 7.
Definition failing_initialize : scripted := Scripted true false 0.
Definition failing_cleanup : scripted := Scripted false true 0.

(** ["a"] registered and never started; then started once. *)
Definition registered_only : @machine scripted nat Z :=
  exec (register_agent "a" steady) (boot 0%nat).
Definition running : @machine scripted nat Z :=
  exec (start_agent "a") registered_only.

(** ["a"], whose [initialize()] raises, registered before ["b"]. *)
Definition flaky_pair : @machine scripted nat Z :=
  exec (register_agent "a" failing_initialize;; register_agent "b" steady)
       (boot 0%nat).

(** ["a"] and ["b"] running, both with a [cleanup()] that raises. *)
Definition stuck_pair : @machine scripted nat Z :=
  exec (register_agent "a" failing_cleanup;;
        register_agent "b" failing_cleanup;;
        start_agents)
       (boot 0%nat).

(** A framework around the manager in which ["a"] runs, with a fresh
    store and some tracker; then the same after [save_states]. *)
Definition running_framework : @Framework.framework scripted nat Z :=
  {| Framework.fw_agent_manager := running;
     Framework.fw_state_manager := StateManager.empty_database;
     Framework.fw_progress_tracker := Framework.ProgressTracker 10 20 30;
     Framework.fw_log := [] |}.
Definition saved_framework : @Framework.framework scripted nat Z :=
  Framework.save_states running_framework 1500000 1600000.

End Scenario.

(** * Properties *)

Lemma sql_datetime_mono t1 t2 : t1 ≤ t2 → sql_datetime t1 ≤ sql_datetime t2.
Proof.
  intros Hle. unfold sql_datetime, microseconds_per_second.
  apply Z.div_le_mono; lia.
Qed.

Lemma sql_datetime_lt t1 t2 : sql_datetime t1 < sql_datetime t2 → t1 < t2.
Proof.
  intros Hlt. destruct (Z_lt_le_dec t1 t2) as [|Hge]; [done|].
  apply sql_datetime_mono in Hge. lia.
Qed.

(** ** The state store *)

Module StateManagerProperties.
Import StateManager.
Section properties.
Context {V : Type} `{!EqDecision V}.
Implicit Types (db : @database V) (h : list (@history_row V)).
Implicit Types (id agent_id : string) (state : gmap string V).

Lemma run_saves_snoc db (calls : list save_call) c :
  run_saves db (calls ++ [c])
  = save_state (run_saves db calls) (call_agent c) (call_state c) (call_now c).
Proof. unfold run_saves. by rewrite foldl_snoc. Qed.

Lemma versions_of_snoc id h r :
  versions_of id (h ++ [r])
  = versions_of id h
    ++ (if decide (h_agent_id r = id) then [h_version r] else []).
Proof.
  unfold versions_of. rewrite filter_app, fmap_app. f_equal.
  rewrite filter_cons, filter_nil. by case_decide.
Qed.

(** C1. Starting from the empty store, after any finite sequence of
    [save_state] calls (for any mix of identities), the versions an identity
    has in the history are exactly 1, 2, ..., n in order, where n is the
    number of calls made for that identity; the current row carries version
    n; and [load_state] returns the state of the last of those calls, or
    nothing when there was none. *)
Theorem save_state_versions_gap_free (calls : list (@save_call V)) id :
  let db := run_saves empty_database calls in
  let mine := filter (λ c, call_agent c = id) calls in
  versions_of id (state_history db) = seqZ 1 (Z.of_nat (length mine))
  ∧ load_state db id = last (call_state <$> mine)
  ∧ row_version <$> agent_states db !! id
    = (if decide (mine = []) then None else Some (Z.of_nat (length mine))).
Proof.
  induction calls as [|c calls IH] using rev_ind; [done|].
  cbv zeta in IH |- *. rewrite run_saves_snoc, filter_app.
  set (db := run_saves empty_database calls) in *.
  set (mine := filter (λ c, call_agent c = id) calls) in *.
  destruct IH as (Hvers & Hload & Hcur).
  rewrite filter_cons, filter_nil.
  unfold save_state, load_state in *. cbn [agent_states state_history].
  rewrite versions_of_snoc. cbn [h_agent_id h_version].
  destruct (decide (call_agent c = id)) as [->|Hne].
  - assert (match agent_states db !! id with
            | Some result => row_version result + 1
            | None => 1
            end = 1 + Z.of_nat (length mine)) as ->.
    { destruct (agent_states db !! id) as [cur|];
        destruct (decide (mine = [])) as [Hnil|]; simplify_eq/=; try lia.
      by rewrite Hnil. }
    rewrite lookup_insert_eq, length_app, fmap_app.
    cbn [row_state row_version length fmap list_fmap option_fmap option_map].
    rewrite last_snoc.
    replace (length mine + 1)%nat with (S (length mine)) by lia.
    rewrite seqZ_S, Hvers. split_and!; [done..|].
    rewrite decide_False by (by destruct mine). f_equal. lia.
  - rewrite lookup_insert_ne by done. by rewrite !app_nil_r.
Qed.

(** *** Versions are never reused *)

Lemma StronglySorted_sublist {X : Type} (R : relation X) (l1 l2 : list X) :
  l1 `sublist_of` l2 → StronglySorted R l2 → StronglySorted R l1.
Proof.
  induction 1 as [|x l1 l2 Hsub IH|x l1 l2 Hsub IH]; intros Hs.
  - constructor.
  - apply StronglySorted_inv in Hs as [Hs Hall]. constructor; [by apply IH|].
    eapply Forall_forall. intros y Hy.
    eapply Forall_forall in Hall; [done|]. by eapply elem_of_sublist.
  - apply StronglySorted_inv in Hs as [Hs _]. by apply IH.
Qed.

Lemma versions_of_filter id (P : @history_row V → Prop)
    `{!∀ r, Decision (P r)} h :
  versions_of id (filter P h) `sublist_of` versions_of id h.
Proof.
  unfold versions_of. apply fmap_sublist.
  induction h as [|r h IH]; [done|].
  rewrite !filter_cons.
  destruct (decide (P r)), (decide (h_agent_id r = id)); simpl;
    rewrite ?filter_cons; repeat case_decide; try done;
    by constructor.
Qed.

Lemma versions_of_clear_history db id agent_id before :
  versions_of id (state_history (clear_history db agent_id before))
  `sublist_of` versions_of id (state_history db).
Proof. destruct before; apply versions_of_filter. Qed.

Lemma reachable_versioned db : reachable db → versioned db.
Proof.
  induction 1 as [|db agent_id state now _ IH|db agent_id before _ IH];
    intros id.
  - split; [constructor|]. by intros v ?%elem_of_nil.
  - destruct (IH id) as [Hsorted Hbound].
    unfold save_state. cbn [agent_states state_history].
    rewrite versions_of_snoc. cbn [h_agent_id h_version].
    destruct (decide (agent_id = id)) as [->|Hne].
    + split.
      * apply StronglySorted_app_2; [|done|repeat constructor].
        intros v1 v2 Hv1 ->%list_elem_of_singleton.
        destruct (Hbound v1 Hv1) as (cur & -> & Hle). lia.
      * intros v [Hv| ->%list_elem_of_singleton]%elem_of_app;
          rewrite lookup_insert_eq; eexists; (split; [done|]); simpl.
        -- destruct (Hbound v Hv) as (cur & -> & Hle). lia.
        -- lia.
    + rewrite app_nil_r, lookup_insert_ne by done. done.
  - destruct (IH id) as [Hsorted Hbound].
    pose proof (versions_of_clear_history db id agent_id before) as Hsub.
    split; [by eapply StronglySorted_sublist|].
    intros v Hv. destruct before; apply Hbound; by eapply elem_of_sublist.
Qed.

(** *** What the query of [compare_states] can return *)

Lemma filter_none {X : Type} (P : X → Prop) `{!∀ x, Decision (P x)}
    (l : list X) :
  (∀ x, x ∈ l → ¬ P x) → filter P l = [].
Proof.
  induction l as [|x l IH]; intros Hno; [done|].
  rewrite filter_cons_False by (apply Hno; left).
  apply IH. intros y Hy. apply Hno. by right.
Qed.

Lemma select_versions_length db id v1 v2 :
  length (select_versions db id v1 v2)
  = length (filter (λ v, v = v1 ∨ v = v2)
                   (versions_of id (state_history db))).
Proof.
  unfold select_versions, versions_of. rewrite length_fmap.
  induction (state_history db) as [|r h IH]; [done|].
  rewrite !filter_cons.
  destruct (decide (h_agent_id r = id)) as [Hid|Hid]; simpl.
  - rewrite filter_cons.
    destruct (decide (h_version r = v1 ∨ h_version r = v2)) as [Hv|Hv].
    + rewrite decide_True by done. simpl. by rewrite IH.
    + rewrite decide_False by tauto. done.
  - rewrite decide_False by tauto. done.
Qed.

Lemma sorted_filter_at_most_one (l : list Z) v1 v2 :
  StronglySorted Z.lt l →
  v1 = v2 ∨ v1 ∉ l ∨ v2 ∉ l →
  (length (filter (λ v, v = v1 ∨ v = v2) l) ≤ 1)%nat.
Proof.
  induction 1 as [|x l Hs IH Hall]; intros Hone; [simpl; lia|].
  rewrite Forall_forall in Hall.
  rewrite filter_cons. case_decide as Hx.
  - rewrite filter_none; [simpl; lia|].
    intros y Hy [->| ->]; specialize (Hall _ Hy);
      destruct Hx as [->| ->], Hone as [Heq|[Hno|Hno]];
      try lia; try (apply Hno; by right); try (apply Hno; by left);
      subst; lia.
  - apply IH.
    destruct Hone as [?|[Hno|Hno]]; [by left|right; left|right; right];
      intros ?; apply Hno; by right.
Qed.

Lemma select_versions_at_most_one db id v1 v2 :
  reachable db →
  v1 = v2 ∨ v1 ∉ versions_of id (state_history db)
          ∨ v2 ∉ versions_of id (state_history db) →
  (length (select_versions db id v1 v2) ≤ 1)%nat.
Proof.
  intros Hreach Hone. rewrite select_versions_length.
  apply sorted_filter_at_most_one; [|done].
  by apply reachable_versioned.
Qed.

Lemma compare_states_short db id v1 v2 :
  (length (select_versions db id v1 v2) ≤ 1)%nat →
  compare_states db id v1 v2 = Returned EmptyDict.
Proof.
  unfold compare_states.
  destruct (select_versions db id v1 v2) as [|s1 [|s2 [|s3 l]]];
    simpl; intros; (done || lia).
Qed.

(** The query, and so the comparison, does not depend on the order in which
    the two versions are asked for. *)
Lemma compare_states_symmetric db id v1 v2 :
  compare_states db id v1 v2 = compare_states db id v2 v1.
Proof.
  unfold compare_states, select_versions.
  by rewrite (list_filter_iff _
    (λ r, h_agent_id r = id ∧ (h_version r = v2 ∨ h_version r = v1)))
    by tauto.
Qed.

(** *** What the loop of [compare_states] computes *)

Lemma compare_key_lookup (state1 state2 : gmap string V) key d :
  is_Some (state1 !! key) ∨ is_Some (state2 !! key) →
  ∃ d', compare_key state1 state2 key d = Returned d'
    ∧ (∀ k, added d' !! k
            = if decide (k = key ∧ state1 !! k = None)
              then state2 !! k else added d !! k)
    ∧ (∀ k, removed d' !! k
            = if decide (k = key ∧ state2 !! k = None)
              then state1 !! k else removed d !! k)
    ∧ (∀ k, modified d' !! k
            = match state1 !! k, state2 !! k with
              | Some v1, Some v2 =>
                  if decide (k = key ∧ v1 ≠ v2)
                  then Some (v1, v2) else modified d !! k
              | _, _ => modified d !! k
              end).
Proof.
  intros Hdom. unfold compare_key.
  destruct (state1 !! key) as [v1|] eqn:H1,
           (state2 !! key) as [v2|] eqn:H2;
    [destruct (decide (v1 ≠ v2))|..|by destruct Hdom as [[??]|[??]]];
    (eexists; split; [done|]); cbn [added removed modified];
    (split_and!; intros k; destruct (decide (k = key)) as [->|Hk];
     rewrite ?H1, ?H2, ?lookup_insert_eq, ?lookup_insert_ne by done;
     repeat case_decide; destruct_and?; simplify_eq; try done;
     repeat case_match; simplify_eq; try done;
     repeat case_decide; destruct_and?; simplify_eq; try done;
     exfalso; by intuition).
Qed.

Lemma decide_either {X : Type} (P Q R : Prop)
    `{!Decision P, !Decision Q, !Decision R} (x y : X) :
  (R ↔ P ∨ Q) →
  (if decide P then x else if decide Q then x else y)
  = (if decide R then x else y).
Proof. intros HR. repeat case_decide; (done || tauto). Qed.

Lemma compare_keys_lookup (state1 state2 : gmap string V) keys : ∀ d,
  NoDup keys →
  (∀ k, k ∈ keys → is_Some (state1 !! k) ∨ is_Some (state2 !! k)) →
  ∃ d', compare_keys state1 state2 keys d = Returned d'
    ∧ (∀ k, added d' !! k
            = if decide (k ∈ keys ∧ state1 !! k = None)
              then state2 !! k else added d !! k)
    ∧ (∀ k, removed d' !! k
            = if decide (k ∈ keys ∧ state2 !! k = None)
              then state1 !! k else removed d !! k)
    ∧ (∀ k, modified d' !! k
            = match state1 !! k, state2 !! k with
              | Some v1, Some v2 =>
                  if decide (k ∈ keys ∧ v1 ≠ v2)
                  then Some (v1, v2) else modified d !! k
              | _, _ => modified d !! k
              end).
Proof.
  induction keys as [|key keys IH]; intros d Hnodup Hdom.
  - exists d. split_and!; [done|..]; intros k.
    + rewrite decide_False; [done|]. by intros [?%elem_of_nil _].
    + rewrite decide_False; [done|]. by intros [?%elem_of_nil _].
    + by destruct (state1 !! k), (state2 !! k).
  - apply NoDup_cons in Hnodup as [Hfresh Hnodup].
    destruct (compare_key_lookup state1 state2 key d)
      as (d1 & Hstep & Hadd1 & Hrem1 & Hmod1); [apply Hdom; left|].
    destruct (IH d1 Hnodup) as (d' & Hrest & Hadd & Hrem & Hmod).
    { intros k Hk. apply Hdom. by right. }
    exists d'. cbn [compare_keys]. rewrite Hstep. split; [done|].
    split_and!; intros k.
    + rewrite Hadd, Hadd1. apply decide_either.
      rewrite elem_of_cons. tauto.
    + rewrite Hrem, Hrem1. apply decide_either.
      rewrite elem_of_cons. tauto.
    + rewrite Hmod, Hmod1.
      destruct (state1 !! k), (state2 !! k); try done.
      apply decide_either. rewrite elem_of_cons. tauto.
Qed.

(** Over the keys of both states the loop never raises; it reports the
    keys only [state2] has as added, the keys only [state1] has as removed,
    and the common keys with unequal values as modified. *)
Lemma compare_keys_union (state1 state2 : gmap string V) :
  ∃ d, compare_keys state1 state2 (elements (dom state1 ∪ dom state2))
         no_differences = Returned d
    ∧ added d = state2 ∖ state1
    ∧ removed d = state1 ∖ state2
    ∧ ∀ k, modified d !! k
           = match state1 !! k, state2 !! k with
             | Some v1, Some v2 =>
                 if decide (v1 ≠ v2) then Some (v1, v2) else None
             | _, _ => None
             end.
Proof.
  destruct (compare_keys_lookup state1 state2
              (elements (dom state1 ∪ dom state2)) no_differences)
    as (d & Hrun & Hadd & Hrem & Hmod).
  { apply NoDup_elements. }
  { intros k [?|?]%elem_of_elements%elem_of_union; [left|right];
      by apply elem_of_dom. }
  assert (∀ k, k ∈ elements (dom state1 ∪ dom state2)
               ↔ is_Some (state1 !! k) ∨ is_Some (state2 !! k)) as Hkeys.
  { intros k. by rewrite elem_of_elements, elem_of_union, !elem_of_dom. }
  exists d. split; [done|]. split_and!.
  - apply map_eq. intros k. rewrite Hadd, lookup_difference. simpl.
    rewrite lookup_empty. destruct (state1 !! k) eqn:H1.
    + by rewrite decide_False by (intros [_ ?]; done).
    + destruct (state2 !! k) eqn:H2.
      * rewrite decide_True; [done|]. split; [|done].
        apply Hkeys. right. by rewrite H2.
      * by case_decide.
  - apply map_eq. intros k. rewrite Hrem, lookup_difference. simpl.
    rewrite lookup_empty. destruct (state2 !! k) eqn:H2.
    + by rewrite decide_False by (intros [_ ?]; done).
    + destruct (state1 !! k) eqn:H1.
      * rewrite decide_True; [done|]. split; [|done].
        apply Hkeys. left. by rewrite H1.
      * by case_decide.
  - intros k. rewrite Hmod. simpl. rewrite lookup_empty.
    destruct (state1 !! k) as [v1|] eqn:H1, (state2 !! k) as [v2|] eqn:H2;
      try done.
    destruct (decide (v1 ≠ v2)).
    + rewrite decide_True; [done|]. split; [|done].
      apply Hkeys. left. by rewrite H1.
    + by rewrite decide_False by tauto.
Qed.

(** *** Two versions that are both in the history *)

Lemma filter_ext_elem_of {X : Type} (P Q : X → Prop)
    `{!∀ x, Decision (P x), !∀ x, Decision (Q x)} (l : list X) :
  (∀ x, x ∈ l → P x ↔ Q x) → filter P l = filter Q l.
Proof.
  induction l as [|x l IH]; intros Hext; [done|].
  rewrite !filter_cons, IH by (intros y Hy; apply Hext; by right).
  apply decide_ext, Hext. left.
Qed.

Lemma sorted_filter_single (l : list (@history_row V)) v :
  StronglySorted Z.lt (h_version <$> l) →
  v ∈ h_version <$> l →
  ∃ r, filter (λ r, h_version r = v) l = [r] ∧ h_version r = v ∧ r ∈ l.
Proof.
  induction l as [|r l IH]; intros Hs Hin; [by apply elem_of_nil in Hin|].
  rewrite fmap_cons in Hs, Hin.
  apply StronglySorted_inv in Hs as [Hs Hall]. rewrite Forall_forall in Hall.
  rewrite filter_cons. case_decide as Hr.
  - exists r. split_and!; [|done|left]. f_equal. apply filter_none.
    intros r' Hr' Hv.
    assert (h_version r < h_version r') as Hgt; [|lia].
    apply Hall, list_elem_of_fmap. by eexists.
  - apply elem_of_cons in Hin as [?|Hin]; [done|].
    destruct (IH Hs Hin) as (r' & ? & ? & ?). exists r'.
    split_and!; [done..|by right].
Qed.

Lemma sorted_filter_pair (l : list (@history_row V)) lo hi :
  StronglySorted Z.lt (h_version <$> l) →
  lo < hi →
  lo ∈ h_version <$> l →
  hi ∈ h_version <$> l →
  ∃ r1 r2,
    filter (λ r, h_version r = lo ∨ h_version r = hi) l = [r1; r2]
    ∧ h_version r1 = lo ∧ h_version r2 = hi ∧ r1 ∈ l ∧ r2 ∈ l.
Proof.
  induction l as [|r l IH]; intros Hs Hlt Hlo Hhi;
    [by apply elem_of_nil in Hlo|].
  rewrite fmap_cons in Hs, Hlo, Hhi.
  apply StronglySorted_inv in Hs as [Hs Hall]. rewrite Forall_forall in Hall.
  rewrite filter_cons. case_decide as Hr.
  - destruct Hr as [Hr|Hr].
    + apply elem_of_cons in Hhi as [?|Hhi]; [lia|].
      destruct (sorted_filter_single l hi Hs Hhi) as (r2 & Hf & ? & ?).
      exists r, r2. split_and!; [|done|done|left|by right].
      f_equal. rewrite <-Hf. apply filter_ext_elem_of. intros r' Hr'.
      assert (h_version r < h_version r') as Hgt.
      { apply Hall, list_elem_of_fmap. by eexists. }
      split; [intros [?|?]; [lia|done]|by right].
    + apply elem_of_cons in Hlo as [?|Hlo]; [lia|].
      specialize (Hall _ Hlo). lia.
  - apply elem_of_cons in Hlo as [?|Hlo]; [exfalso; apply Hr; by left|].
    apply elem_of_cons in Hhi as [?|Hhi]; [exfalso; apply Hr; by right|].
    destruct (IH Hs Hlt Hlo Hhi) as (r1 & r2 & ? & ? & ? & ? & ?).
    exists r1, r2. split_and!; [done..|by right|by right].
Qed.

(** X6. On a store the class has produced, when the two versions differ and
    both are in the identity's history, [compare_states] compares the row
    of the lower version (saved first) with the row of the higher one, in
    that direction, whichever of the two is passed as [version1]. *)
Lemma compare_states_two_versions db id v1 v2 :
  reachable db →
  v1 ≠ v2 →
  v1 ∈ versions_of id (state_history db) →
  v2 ∈ versions_of id (state_history db) →
  ∃ r1 r2 d,
    r1 ∈ state_history db ∧ r2 ∈ state_history db
    ∧ h_agent_id r1 = id ∧ h_agent_id r2 = id
    ∧ h_version r1 = Z.min v1 v2 ∧ h_version r2 = Z.max v1 v2
    ∧ compare_states db id v1 v2 = Returned (Compared d)
    ∧ added d = h_state r2 ∖ h_state r1
    ∧ removed d = h_state r1 ∖ h_state r2
    ∧ ∀ k, modified d !! k
           = match h_state r1 !! k, h_state r2 !! k with
             | Some x1, Some x2 =>
                 if decide (x1 ≠ x2) then Some (x1, x2) else None
             | _, _ => None
             end.
Proof.
  intros Hreach Hne Hin1 Hin2.
  destruct (reachable_versioned db Hreach id) as [Hsorted _].
  unfold versions_of in *.
  set (mine := filter (λ r, h_agent_id r = id) (state_history db)) in *.
  destruct (sorted_filter_pair mine (Z.min v1 v2) (Z.max v1 v2))
    as (r1 & r2 & Hf & Hv1 & Hv2 & [Hid1 Hr1]%list_elem_of_filter
        & [Hid2 Hr2]%list_elem_of_filter); [done|lia|..].
  { destruct (Z.min_spec v1 v2) as [[_ ->]|[_ ->]]; done. }
  { destruct (Z.max_spec v1 v2) as [[_ ->]|[_ ->]]; done. }
  assert (select_versions db id v1 v2 = [h_state r1; h_state r2]) as Hsel.
  { unfold select_versions.
    rewrite (list_filter_iff _ (λ r,
      (h_version r = Z.min v1 v2 ∨ h_version r = Z.max v1 v2)
      ∧ h_agent_id r = id))
      by (intros r; destruct (Z.min_spec v1 v2) as [[? ->]|[? ->]],
            (Z.max_spec v1 v2) as [[? ->]|[? ->]]; try lia; tauto).
    rewrite <-list_filter_filter. fold mine. by rewrite Hf. }
  destruct (compare_keys_union (h_state r1) (h_state r2))
    as (d & Hrun & Hadd & Hrem & Hmod).
  exists r1, r2, d. split_and!; try done.
  unfold compare_states. by rewrite Hsel, Hrun.
Qed.

(** C6 (as amended). On a store the class has produced, when at least one
    of the two requested versions is not in the identity's history,
    [compare_states] raises nothing: it returns the empty dictionary [{}]. *)
Theorem compare_states_missing_version db id v1 v2 :
  reachable db →
  v1 ∉ versions_of id (state_history db)
  ∨ v2 ∉ versions_of id (state_history db) →
  compare_states db id v1 v2 = Returned EmptyDict.
Proof.
  intros Hreach Hmiss. apply compare_states_short.
  apply select_versions_at_most_one; tauto.
Qed.

(** C7 (as amended). On a store the class has produced, comparing a version
    [v] of the identity's history with itself selects the single row of that
    version and returns the empty dictionary [{}], which has no
    ["added"], ["removed"] or ["modified"] entry. *)
Theorem compare_states_same_version db id v :
  reachable db →
  v ∈ versions_of id (state_history db) →
  (∃ state, select_versions db id v v = [state])
  ∧ compare_states db id v v = Returned EmptyDict.
Proof.
  intros Hreach Hin.
  pose proof (select_versions_at_most_one db id v v Hreach) as Hle.
  split; [|apply compare_states_short; tauto].
  destruct (select_versions db id v v) as [|s1 [|s2 l]] eqn:Hsel.
  - exfalso. unfold select_versions, versions_of in *.
    apply fmap_nil_inv in Hsel.
    apply list_elem_of_fmap in Hin as (r & -> & [Hid Hr]%list_elem_of_filter).
    assert (r ∉ state_history db) as Hno; [|done].
    eapply filter_nil_not_elem_of; [exact Hsel|]. simpl. tauto.
  - by eexists.
  - simpl in Hle. lia.
Qed.

(** C9. [clear_history], with or without a date, leaves the table of
    current rows as it is, so [load_state] answers the same for every
    identity.  The history it leaves is the old one with rows taken out, in
    the same order; every row taken out belongs to the given identity and,
    when a date is given, has a timestamp earlier than it; rows of other
    identities, and rows not earlier than the date, all stay. *)
Theorem clear_history_frame db id (before_date : option Z) :
  let db' := clear_history db id before_date in
  agent_states db' = agent_states db
  ∧ (∀ agent_id, load_state db' agent_id = load_state db agent_id)
  ∧ state_history db' `sublist_of` state_history db
  ∧ (∀ r, r ∈ state_history db → r ∉ state_history db' →
       h_agent_id r = id
       ∧ match before_date with
         | Some before => h_timestamp r < before
         | None => True
         end)
  ∧ (∀ r, r ∈ state_history db →
       h_agent_id r ≠ id
       ∨ (∃ before, before_date = Some before ∧ before ≤ h_timestamp r) →
       r ∈ state_history db').
Proof.
  cbv zeta. destruct before_date as [before|]; cbn [clear_history agent_states
    state_history]; (split_and!; [done|done|apply sublist_filter|..]).
  - intros r Hin Hout.
    destruct (decide (h_agent_id r = id
      ∧ sql_datetime (h_timestamp r) < sql_datetime before)) as [[? Hlt]|Hno].
    + split; [done|]. by apply sql_datetime_lt.
    + exfalso. apply Hout. by apply list_elem_of_filter.
  - intros r Hin Hkeep. apply list_elem_of_filter. split; [|done].
    intros [Hid Hlt]. destruct Hkeep as [?|(b & [= <-] & Hle)]; [done|].
    apply sql_datetime_mono in Hle. lia.
  - intros r Hin Hout. split; [|done].
    destruct (decide (h_agent_id r = id)) as [|Hno]; [done|].
    exfalso. apply Hout. by apply list_elem_of_filter.
  - intros r Hin [Hne|(b & [=] & _)]. by apply list_elem_of_filter.
Qed.

(** *** More on writing: other identities, the current row, numbering *)

(** X1. [save_state] for one identity leaves every other identity as it
    was: its current row, what [load_state] returns, its history rows, and
    so what [get_state_history] and [compare_states] answer for it. *)
Theorem save_state_other_identity db id state now other :
  other ≠ id →
  let db' := save_state db id state now in
  agent_states db' !! other = agent_states db !! other
  ∧ load_state db' other = load_state db other
  ∧ filter (λ r, h_agent_id r = other) (state_history db')
    = filter (λ r, h_agent_id r = other) (state_history db)
  ∧ (∀ limit, get_state_history db' other limit
              = get_state_history db other limit)
  ∧ (∀ v1 v2, compare_states db' other v1 v2
              = compare_states db other v1 v2).
Proof.
  intros Hne. cbv zeta.
  assert (filter (λ r, h_agent_id r = other)
                 (state_history (save_state db id state now))
          = filter (λ r, h_agent_id r = other) (state_history db)) as Hrows.
  { unfold save_state. cbn [state_history].
    rewrite filter_app, filter_cons_False, filter_nil, app_nil_r; [done|].
    simpl. congruence. }
  assert (agent_states (save_state db id state now) !! other
          = agent_states db !! other) as Hcur.
  { unfold save_state. cbn [agent_states]. by rewrite lookup_insert_ne. }
  split_and!; [done| |done|..].
  - unfold load_state. by rewrite Hcur.
  - intros limit. unfold get_state_history. by rewrite Hrows.
  - intros v1 v2. unfold compare_states, select_versions.
    rewrite !(list_filter_iff
      (λ r, h_agent_id r = other ∧ (h_version r = v1 ∨ h_version r = v2))
      (λ r, (h_version r = v1 ∨ h_version r = v2) ∧ h_agent_id r = other))
      by (intros; tauto).
    by rewrite <-!list_filter_filter, Hrows.
Qed.

(** X2. On a store the class has produced, every history row of an
    identity has a current row beside it, whose version is not lower; and
    the history row that carries the current version carries the current
    state and timestamp: the current row mirrors its history entry. *)
Theorem current_row_mirrors_history db (r : @history_row V) :
  reachable db →
  r ∈ state_history db →
  ∃ cur, agent_states db !! h_agent_id r = Some cur
    ∧ h_version r ≤ row_version cur
    ∧ (h_version r = row_version cur →
       h_state r = row_state cur ∧ h_timestamp r = row_timestamp cur
       ∧ load_state db (h_agent_id r) = Some (h_state r)).
Proof.
  intros Hreach. revert r.
  induction Hreach as [|db agent_id state now _ IH|db agent_id before _ IH];
    intros r Hin.
  - by apply elem_of_nil in Hin.
  - unfold save_state, load_state in *. cbn [agent_states state_history] in *.
    apply elem_of_app in Hin as [Hin| ->%list_elem_of_singleton].
    + destruct (IH r Hin) as (cur & Hcur & Hle & Hsame).
      destruct (decide (agent_id = h_agent_id r)) as [->|Hne].
      * rewrite lookup_insert_eq, Hcur. eexists. split; [done|]. simpl.
        split; [lia|]. intros ?. lia.
      * rewrite lookup_insert_ne by done. rewrite Hcur in *. by exists cur.
    + cbn [h_agent_id h_version h_state h_timestamp].
      rewrite lookup_insert_eq. eexists. split; [done|]. simpl.
      split; [lia|done].
  - assert (r ∈ state_history db) as Hold.
    { destruct before; cbn [clear_history state_history] in Hin;
        by apply list_elem_of_filter in Hin as [_ ?]. }
    destruct (IH r Hold) as (cur & Hcur & Hle & Hsame).
    exists cur. unfold load_state in *.
    by destruct before; cbn [clear_history agent_states].
Qed.

(** X3. Pruning does not restart the numbering.  On a store the class has
    produced, after [clear_history] (with or without a date) the next
    [save_state] of the identity gets the version after the current one,
    which no row of the identity's history ever carried, pruned or not. *)
Theorem version_continues_after_prune db id before state now cur :
  reachable db →
  agent_states db !! id = Some cur →
  let pruned := clear_history db id before in
  let db' := save_state pruned id state now in
  row_version <$> agent_states db' !! id = Some (row_version cur + 1)
  ∧ versions_of id (state_history db')
    = versions_of id (state_history pruned) ++ [row_version cur + 1]
  ∧ row_version cur + 1 ∉ versions_of id (state_history db).
Proof.
  intros Hreach Hcur. cbv zeta.
  assert (agent_states (clear_history db id before) = agent_states db)
    as Hsame by (by destruct before).
  unfold save_state. cbn [agent_states state_history].
  rewrite Hsame, Hcur, lookup_insert_eq, versions_of_snoc.
  cbn [h_agent_id h_version]. rewrite decide_True by done.
  split_and!; [done..|].
  intros Hin. destruct (reachable_versioned db Hreach id) as [_ Hbound].
  destruct (Hbound _ Hin) as (cur' & Hcur' & Hle). simplify_eq. lia.
Qed.

(** *** The history query *)

#[local] Instance newer_first_transitive :
  Transitive (@newer_first V).
Proof. intros r1 r2 r3. unfold newer_first. lia. Qed.

#[local] Instance newer_first_total : Total (@newer_first V).
Proof. intros r1 r2. unfold newer_first. lia. Qed.







End properties.

(** *** On the store of two saves *)

Import Scenario.

Lemma two_saves_reachable : reachable two_saves.
Proof. unfold two_saves, one_save. repeat constructor. Qed.

(** C3 (the code does not meet it). After [save_state("agent", {a: 1})] and
    [save_state("agent", {a: 1, b: 2})] the history holds versions 1 and 2.
    Comparing 1 with 2 reports ["b"] as added and nothing as removed;
    comparing 2 with 1 reports the very same, so what is added from 1 to 2
    is not what is removed from 2 to 1. *)
Theorem compare_states_ignores_direction :
  versions_of "agent" (state_history two_saves) = [1; 2]
  ∧ compare_states two_saves "agent" 1 2
    = Returned (Compared {| added := {["b" := 2]}; removed := ∅;
                            modified := ∅ |})
  ∧ compare_states two_saves "agent" 2 1
    = Returned (Compared {| added := {["b" := 2]}; removed := ∅;
                            modified := ∅ |}).
Proof. split_and!; by vm_compute. Qed.

(** C6, counterexample. Version 3 is not in the history of ["agent"], and
    comparing versions 1 and 3 returns normally, with [{}]. *)
Lemma compare_states_missing_returns_empty :
  versions_of "agent" (state_history two_saves) = [1; 2]
  ∧ compare_states two_saves "agent" 1 3 = Returned EmptyDict.
Proof. split; by vm_compute. Qed.

(** C6, witness: the store of two saves, versions 1 and 3. *)
Lemma compare_states_missing_version_witness :
  reachable two_saves
  ∧ (1 ∉ versions_of "agent" (state_history two_saves)
     ∨ 3 ∉ versions_of "agent" (state_history two_saves))
  ∧ compare_states two_saves "agent" 1 3 = Returned EmptyDict.
Proof.
  assert (1 ∉ versions_of "agent" (state_history two_saves)
          ∨ 3 ∉ versions_of "agent" (state_history two_saves)) as Hmiss.
  { right. vm_compute. intros Hin. apply list_elem_of_In in Hin.
    destruct Hin as [?|[?|[]]]; lia. }
  exact (conj two_saves_reachable (conj Hmiss
    (compare_states_missing_version two_saves "agent" 1 3
       two_saves_reachable Hmiss))).
Defined.

(** C7, counterexample. Version 1 is in the history of ["agent"], and
    comparing it with itself returns [{}]: the result has no ["added"],
    ["removed"] or ["modified"] entry. *)
Lemma compare_states_same_returns_empty :
  versions_of "agent" (state_history two_saves) = [1; 2]
  ∧ compare_states two_saves "agent" 1 1 = Returned EmptyDict.
Proof. split; by vm_compute. Qed.

(** C7, witness: the store of two saves, version 1 twice. *)
Lemma compare_states_same_version_witness :
  reachable two_saves
  ∧ 1 ∈ versions_of "agent" (state_history two_saves)
  ∧ (∃ state, select_versions two_saves "agent" 1 1 = [state])
  ∧ compare_states two_saves "agent" 1 1 = Returned EmptyDict.
Proof.
  assert (1 ∈ versions_of "agent" (state_history two_saves)) as Hin.
  { vm_compute. left. }
  exact (conj two_saves_reachable (conj Hin
    (compare_states_same_version two_saves "agent" 1
       two_saves_reachable Hin))).
Defined.

(** X1, witness: a third save for ["agent"], seen from ["other"]. *)
Lemma save_state_other_identity_witness :
  "other" ≠ "agent"
  ∧ (let db' := save_state two_saves "agent" ∅ 3500000 in
     agent_states db' !! "other" = agent_states two_saves !! "other"
     ∧ load_state db' "other" = load_state two_saves "other"
     ∧ filter (λ r, h_agent_id r = "other") (state_history db')
       = filter (λ r, h_agent_id r = "other") (state_history two_saves)
     ∧ (∀ limit, get_state_history db' "other" limit
                 = get_state_history two_saves "other" limit)
     ∧ (∀ v1 v2, compare_states db' "other" v1 v2
                 = compare_states two_saves "other" v1 v2)).
Proof.
  assert ("other" ≠ "agent") as Hne by discriminate.
  exact (conj Hne
    (save_state_other_identity two_saves "agent" ∅ 3500000 "other" Hne)).
Defined.

(** X2, witness: the second row of the store of two saves. *)
Lemma current_row_mirrors_history_witness :
  let r := HistoryRow "agent" (<["b" := 2]> {["a" := 1]}) 2500000 2 in
  reachable two_saves
  ∧ r ∈ state_history two_saves
  ∧ ∃ cur, agent_states two_saves !! h_agent_id r = Some cur
      ∧ h_version r ≤ row_version cur
      ∧ (h_version r = row_version cur →
         h_state r = row_state cur ∧ h_timestamp r = row_timestamp cur
         ∧ load_state two_saves (h_agent_id r) = Some (h_state r)).
Proof.
  assert (HistoryRow "agent" (<["b" := 2]> {["a" := 1]}) 2500000 2
          ∈ state_history two_saves) as Hin.
  { unfold two_saves, one_save, save_state. cbn [state_history].
    apply elem_of_app. right. left. }
  exact (conj two_saves_reachable (conj Hin
    (current_row_mirrors_history two_saves _ two_saves_reachable Hin))).
Defined.

(** X3, witness: the store of two saves, pruned of everything, then saved
    to again: the new version is 3. *)
Lemma version_continues_after_prune_witness :
  let cur := CurrentRow (<["b" := 2]> {["a" := 1]}) 2500000 2 in
  reachable two_saves
  ∧ agent_states two_saves !! "agent" = Some cur
  ∧ (let pruned := clear_history two_saves "agent" None in
     let db' := save_state pruned "agent" ∅ 3500000 in
     row_version <$> agent_states db' !! "agent" = Some (row_version cur + 1)
     ∧ versions_of "agent" (state_history db')
       = versions_of "agent" (state_history pruned) ++ [row_version cur + 1]
     ∧ row_version cur + 1 ∉ versions_of "agent" (state_history two_saves)).
Proof.
  assert (agent_states two_saves !! "agent"
          = Some (CurrentRow (<["b" := 2]> {["a" := 1]}) 2500000 2)) as Hcur.
  { unfold two_saves, one_save, save_state. cbn [agent_states].
    apply lookup_insert_eq. }
  exact (conj two_saves_reachable (conj Hcur
    (version_continues_after_prune two_saves "agent" None ∅ 3500000 _
       two_saves_reachable Hcur))).
Defined.


(** X6, witness: versions 2 and 1 of the store of two saves, asked for in
    that order. *)
Lemma compare_states_two_versions_witness :
  reachable two_saves
  ∧ 2 ≠ 1
  ∧ 2 ∈ versions_of "agent" (state_history two_saves)
  ∧ 1 ∈ versions_of "agent" (state_history two_saves)
  ∧ ∃ r1 r2 d,
      r1 ∈ state_history two_saves ∧ r2 ∈ state_history two_saves
      ∧ h_agent_id r1 = "agent" ∧ h_agent_id r2 = "agent"
      ∧ h_version r1 = Z.min 2 1 ∧ h_version r2 = Z.max 2 1
      ∧ compare_states two_saves "agent" 2 1 = Returned (Compared d)
      ∧ added d = h_state r2 ∖ h_state r1
      ∧ removed d = h_state r1 ∖ h_state r2
      ∧ ∀ k, modified d !! k
             = match h_state r1 !! k, h_state r2 !! k with
               | Some x1, Some x2 =>
                   if decide (x1 ≠ x2) then Some (x1, x2) else None
               | _, _ => None
               end.
Proof.
  assert (2 ≠ 1) as Hne by lia.
  assert (versions_of "agent" (state_history two_saves) = [1; 2]) as Hvs
    by (by vm_compute).
  assert (2 ∈ versions_of "agent" (state_history two_saves)) as H2.
  { rewrite Hvs. right. left. }
  assert (1 ∈ versions_of "agent" (state_history two_saves)) as H1.
  { rewrite Hvs. left. }
  exact (conj two_saves_reachable (conj Hne (conj H2 (conj H1
    (compare_states_two_versions two_saves "agent" 2 1
       two_saves_reachable Hne H2 H1))))).
Defined.

End StateManagerProperties.

(** ** The cache *)

Module EngagementCacheProperties.
Import EngagementCache.
Section properties.
Context {V : Type}.
Implicit Types (c : @cache V) (row : @cache_row V) (ops : list (@call V)).





(** *** Writing, purging and counting *)

Lemma sql_datetime_max t1 t2 :
  sql_datetime (Z.max t1 t2) = Z.max (sql_datetime t1) (sql_datetime t2).
Proof.
  destruct (Z.max_spec t1 t2) as [[Hlt ->]|[Hle ->]].
  - pose proof (sql_datetime_mono t1 t2). lia.
  - pose proof (sql_datetime_mono t2 t1). lia.
Qed.


(** X7. [set] and [delete] touch one key: what [get] returns for any
    other key is unchanged.  After [delete], [get] of the key finds
    nothing at any time, and a [set] followed by [delete] of the same key
    leaves the table as [delete] alone does. *)
Theorem set_delete_one_key c key other value expiry now sql_now :
  other ≠ key →
  get (set c key value expiry now) other sql_now = get c other sql_now
  ∧ get (delete c key) other sql_now = get c other sql_now
  ∧ get (delete c key) key sql_now = None
  ∧ delete (set c key value expiry now) key = delete c key.
Proof.
  intros Hne. unfold get, set, delete. cbn [engagement_cache cache_duration].
  rewrite lookup_insert_ne, lookup_delete_ne, lookup_delete_eq by done.
  split_and!; [done..|]. f_equal. apply delete_insert_eq.
Qed.

(** X8. A purge never changes what a read at the same or a later clock
    reading returns, for any key. *)
Theorem clear_expired_invisible c key t sql_now :
  t ≤ sql_now →
  get (clear_expired c t) key sql_now = get c key sql_now.
Proof.
  intros Hle%sql_datetime_mono. unfold get, clear_expired.
  cbn [engagement_cache].
  destruct (engagement_cache c !! key) as [row|] eqn:Hrow.
  - destruct (decide (sql_datetime (c_expiry row) ≤ sql_datetime t)) as [Hx|Hx].
    + rewrite (proj2 (map_lookup_filter_None _ _ _)).
      * by rewrite decide_False by lia.
      * right. intros row' ?. simplify_eq. simpl. tauto.
    + by rewrite (map_lookup_filter_Some_2 _ _ _ row).
  - rewrite (proj2 (map_lookup_filter_None _ _ _)); [done|by left].
Qed.

(** X9. Two purges in a row are one purge at the later of the two clock
    readings; in particular a purge repeated at the same reading changes
    nothing more. *)
Theorem clear_expired_twice c t1 t2 :
  clear_expired (clear_expired c t1) t2 = clear_expired c (Z.max t1 t2).
Proof.
  unfold clear_expired. cbn [engagement_cache cache_duration]. f_equal.
  rewrite map_filter_filter. apply map_filter_ext. intros key row _.
  simpl. rewrite sql_datetime_max. lia.
Qed.

(** X10. The counts of [get_metrics] add up and mean what [get] does:
    expired and active entries are not negative and sum to the total; the
    active ones are exactly the keys for which [get] at that clock reading
    returns a value; and a purge at that reading leaves a table whose
    total is the former active count, with nothing expired. *)
Theorem get_metrics_accounts c sql_now :
  let m := get_metrics c sql_now in
  0 ≤ expired_entries m
  ∧ 0 ≤ active_entries m
  ∧ total_entries m = expired_entries m + active_entries m
  ∧ active_entries m
    = Z.of_nat (size (filter (λ kr, is_Some (get c kr.1 sql_now))
                             (engagement_cache c)))
  ∧ get_metrics (clear_expired c sql_now) sql_now
    = {| total_entries := active_entries m;
         expired_entries := 0;
         active_entries := active_entries m |}.
Proof.
  cbv zeta. unfold get_metrics, clear_expired.
  cbn [total_entries expired_entries active_entries engagement_cache].
  set (expired := λ kr : string * cache_row,
         sql_datetime (c_expiry kr.2) ≤ sql_datetime sql_now).
  set (table := engagement_cache c).
  assert (size table
          = (size (filter expired table)
             + size (filter (λ kr, ¬ expired kr) table))%nat) as Hsplit.
  { rewrite <-(map_filter_union_complement expired table) at 1.
    apply map_size_disj_union, map_disjoint_filter_complement. }
  assert (filter (λ kr, is_Some (get c kr.1 sql_now)) table
          = filter (λ kr, ¬ expired kr) table) as Hlive.
  { apply map_filter_ext. intros key row Hrow. unfold get, expired.
    cbn [fst snd]. subst table. rewrite Hrow. case_decide.
    - split; [lia|by eexists].
    - split; [by intros [??]|lia]. }
  assert (filter expired (filter (λ kr, ¬ expired kr) table) = ∅) as Hnone.
  { apply map_eq. intros key. rewrite lookup_empty.
    apply map_lookup_filter_None. right. intros row Hrow.
    by apply map_lookup_filter_Some in Hrow as [_ Hno]. }
  split_and!; [lia|lia|lia|by rewrite Hlive; lia|].
  change (filter (λ kr : string * cache_row,
            ¬ sql_datetime (c_expiry kr.2) ≤ sql_datetime sql_now) table)
    with (filter (λ kr, ¬ expired kr) table).
  rewrite Hnone, map_size_empty. f_equal; lia.
Qed.


End properties.

(** *** On the cache holding ["k"] *)

Import Scenario.



(** X7, witness: ["k"] is set and deleted, ["j"] is read. *)
Lemma set_delete_one_key_witness :
  "j" ≠ "k"
  ∧ get (set cache_k "k" 8 None 600000) "j" 700000 = get cache_k "j" 700000
  ∧ get (delete cache_k "k") "j" 700000 = get cache_k "j" 700000
  ∧ get (delete cache_k "k") "k" 700000 = None
  ∧ delete (set cache_k "k" 8 None 600000) "k" = delete cache_k "k".
Proof.
  assert ("j" ≠ "k") as Hne by discriminate.
  exact (conj Hne
    (set_delete_one_key cache_k "k" "j" 8 None 600000 700000 Hne)).
Defined.

(** X8, witness: a purge at 0.9 s and a read of ["k"] at 1.2 s. *)
Lemma clear_expired_invisible_witness :
  900000 ≤ 1200000
  ∧ get (clear_expired cache_k 900000) "k" 1200000
    = get cache_k "k" 1200000.
Proof.
  assert (900000 ≤ 1200000) as Hle by lia.
  exact (conj Hle (clear_expired_invisible cache_k "k" 900000 1200000 Hle)).
Defined.

End EngagementCacheProperties.

(** ** The agent registry *)

Lemma dict_get_is_Some {X : Type} (d : list (string * X)) key :
  is_Some (dict_get d key) ↔ key ∈ d.*1.
Proof.
  induction d as [|[k v] d IH]; simpl.
  - split; [by intros [? ?]|by intros ?%elem_of_nil].
  - case_decide as Hk; [subst; split; [left|by eexists]|].
    rewrite IH, elem_of_cons. split; [by right|]. by intros [?|?].
Qed.

Module AgentManagerProperties.
Import AgentManager.
Section properties.
Context {A W V : Type} `{!Agent A W V}.
Implicit Types (s : @machine A W V) (m : @agent_manager A V).
Implicit Types (id : string) (keys : list string).

Ltac unfold_M :=
  unfold mbind, M_bind, mret, M_ret, get_manager, put_manager, log_info,
    await, raise.

(** *** One agent *)

Lemma start_agent_unknown s id :
  dict_get (agents (manager s)) id = None →
  start_agent id s
  = (s, Raised (ValueError ("Agent " +:+ id +:+ " not found"))).
Proof. intros Hget. unfold start_agent. unfold_M. simpl. by rewrite Hget. Qed.

Lemma start_agent_registered s id a :
  dict_get (agents (manager s)) id = Some a →
  start_agent id s
  = match initialize a (world s) with
    | (w, Returned _) =>
        ({| manager := {| agents := agents (manager s);
                          active_agents := {[id]} ∪ active_agents (manager s);
                          agent_metrics := agent_metrics (manager s) |};
            world := w; trace := trace s ++ started id |}, Returned tt)
    | (w, Raised e) =>
        ({| manager := manager s; world := w;
            trace := trace s ++ [Await id Initialize] |}, Raised e)
    end.
Proof.
  intros Hget. unfold start_agent. unfold_M. simpl. rewrite Hget.
  destruct (initialize a (world s)) as [w [[]|e]]; simpl; [|done].
  by rewrite <-app_assoc.
Qed.

Lemma stop_agent_inactive s id :
  id ∉ active_agents (manager s) → stop_agent id s = (s, Returned tt).
Proof. intros Hno. unfold stop_agent. unfold_M. simpl. by rewrite decide_True. Qed.

Lemma stop_agent_active s id a :
  id ∈ active_agents (manager s) →
  dict_get (agents (manager s)) id = Some a →
  stop_agent id s
  = match cleanup a (world s) with
    | (w, Returned _) =>
        ({| manager := {| agents := agents (manager s);
                          active_agents := active_agents (manager s) ∖ {[id]};
                          agent_metrics := agent_metrics (manager s) |};
            world := w; trace := trace s ++ stopped id |}, Returned tt)
    | (w, Raised e) =>
        ({| manager := manager s; world := w;
            trace := trace s ++ [Await id Cleanup] |}, Raised e)
    end.
Proof.
  intros Hin Hget. unfold stop_agent. unfold_M. simpl.
  rewrite decide_False by (by intros ?). rewrite Hget.
  destruct (cleanup a (world s)) as [w [[]|e]]; simpl; [|done].
  rewrite decide_True by done. simpl. by rewrite <-app_assoc.
Qed.

(** C5 (as amended). [start_agent] on a registered identity that is already
    active awaits the agent's [initialize()] once more.  When that call
    returns, [start_agent] returns and logs the start; when it raises,
    [start_agent] raises the same exception.  Either way the manager (its
    registry, active set and metrics) is what it was. *)
Theorem start_agent_again s id a :
  dict_get (agents (manager s)) id = Some a →
  id ∈ active_agents (manager s) →
  let '(w, r) := initialize a (world s) in
  let '(s', r') := start_agent id s in
  r' = r
  ∧ manager s' = manager s
  ∧ world s' = w
  ∧ trace s' = trace s ++ Await id Initialize ::
      match r with
      | Returned _ => [LogInfo ("Started agent: " +:+ id)]
      | Raised _ => []
      end.
Proof.
  intros Hget Hin. rewrite (start_agent_registered s id a Hget).
  destruct (initialize a (world s)) as [w [[]|e]]; simpl; [|done].
  split_and!; try done.
  destruct (manager s) as [ags act met]; simpl in *. f_equal.
  by apply subseteq_union_1_L, singleton_subseteq_l.
Qed.

(** C10. [stop_agent] on an active, registered identity awaits the agent's
    [cleanup()].  When that call raises, [stop_agent] raises the same
    exception, the identity is still in the active set and the manager is
    what it was; nothing is logged.  When it returns, and only then, the
    identity leaves the active set. *)
Theorem stop_agent_cleanup_outcome s id a :
  id ∈ active_agents (manager s) →
  dict_get (agents (manager s)) id = Some a →
  let '(w, r) := cleanup a (world s) in
  let '(s', r') := stop_agent id s in
  r' = r
  ∧ world s' = w
  ∧ match r with
    | Raised e =>
        manager s' = manager s
        ∧ id ∈ active_agents (manager s')
        ∧ trace s' = trace s ++ [Await id Cleanup]
    | Returned _ =>
        agents (manager s') = agents (manager s)
        ∧ active_agents (manager s') = active_agents (manager s) ∖ {[id]}
        ∧ trace s' = trace s ++ stopped id
    end.
Proof.
  intros Hin Hget. rewrite (stop_agent_active s id a Hin Hget).
  by destruct (cleanup a (world s)) as [w [[]|e]].
Qed.

(** *** The batches *)

Lemma for_each_start_agent keys : ∀ s,
  (∀ id, id ∈ keys → id ∈ registered (manager s)) →
  match for_each start_agent keys s with
  | (s', Returned _) =>
      agents (manager s') = agents (manager s)
      ∧ active_agents (manager s')
        = list_to_set keys ∪ active_agents (manager s)
      ∧ trace s' = trace s ++ (keys ≫= started)
  | (s', Raised e) =>
      ∃ n id a w w',
        keys !! n = Some id
        ∧ dict_get (agents (manager s)) id = Some a
        ∧ initialize a w = (w', Raised e)
        ∧ agents (manager s') = agents (manager s)
        ∧ active_agents (manager s')
          = list_to_set (take n keys) ∪ active_agents (manager s)
        ∧ trace s' = trace s ++ (take n keys ≫= started)
                             ++ [Await id Initialize]
  end.
Proof.
  induction keys as [|id keys IH]; intros s Hreg.
  - simpl. split_and!; [done| |by rewrite app_nil_r].
    by rewrite ?list_to_set_nil, (left_id_L ∅ (∪)).
  - assert (is_Some (dict_get (agents (manager s)) id)) as [a Hget].
    { apply dict_get_is_Some, Hreg. left. }
    cbn [for_each]. unfold mbind at 1, M_bind at 1.
    rewrite (start_agent_registered s id a Hget).
    destruct (initialize a (world s)) as [w [[]|e]] eqn:Hinit.
    + match goal with |- context [for_each start_agent keys ?s1] =>
        specialize (IH s1); destruct (for_each start_agent keys s1)
          as [s' [[]|e]] end; cbn [manager agents active_agents trace] in IH.
      * destruct IH as (Hags & Hact & Htr); [by intros; apply Hreg; right|].
        split_and!; [done| |].
        -- rewrite Hact, list_to_set_cons.
           by rewrite (assoc_L (∪)), (comm_L (∪) _ {[id]}).
        -- rewrite Htr, bind_cons. by rewrite <-app_assoc.
      * destruct IH as (n & id' & a' & w1 & w2 & Hn & Hget' & Hraise & Hags
                        & Hact & Htr); [by intros; apply Hreg; right|].
        exists (S n), id', a', w1, w2. split_and!; try done.
        -- rewrite Hact. cbn [take]. rewrite list_to_set_cons.
           by rewrite (assoc_L (∪)), (comm_L (∪) _ {[id]}).
        -- rewrite Htr. cbn [take]. rewrite bind_cons.
           by rewrite <-!app_assoc.
    + exists 0%nat, id, a, (world s), w. cbn [take manager trace].
      split_and!; try done.
      * by rewrite ?list_to_set_nil, (left_id_L ∅ (∪)).
Qed.

Lemma for_each_stop_agent keys : ∀ s,
  NoDup keys →
  (∀ id, id ∈ keys →
     id ∈ active_agents (manager s) ∧ id ∈ registered (manager s)) →
  match for_each stop_agent keys s with
  | (s', Returned _) =>
      agents (manager s') = agents (manager s)
      ∧ active_agents (manager s')
        = active_agents (manager s) ∖ list_to_set keys
      ∧ trace s' = trace s ++ (keys ≫= stopped)
  | (s', Raised e) =>
      ∃ n id a w w',
        keys !! n = Some id
        ∧ dict_get (agents (manager s)) id = Some a
        ∧ cleanup a w = (w', Raised e)
        ∧ agents (manager s') = agents (manager s)
        ∧ active_agents (manager s')
          = active_agents (manager s) ∖ list_to_set (take n keys)
        ∧ trace s' = trace s ++ (take n keys ≫= stopped)
                             ++ [Await id Cleanup]
  end.
Proof.
  induction keys as [|id keys IH]; intros s Hnodup Hkeys.
  - simpl. split_and!; [done| |by rewrite app_nil_r].
    by rewrite ?list_to_set_nil, difference_empty_L.
  - apply NoDup_cons in Hnodup as [Hfresh Hnodup].
    destruct (Hkeys id) as [Hact0 Hreg0]; [left|].
    apply dict_get_is_Some in Hreg0 as [a Hget].
    cbn [for_each]. unfold mbind at 1, M_bind at 1.
    rewrite (stop_agent_active s id a Hact0 Hget).
    destruct (cleanup a (world s)) as [w [[]|e]] eqn:Hclean.
    + match goal with |- context [for_each stop_agent keys ?s1] =>
        specialize (IH s1 Hnodup); destruct (for_each stop_agent keys s1)
          as [s' [[]|e]] end; cbn [manager agents active_agents trace] in IH.
      * destruct IH as (Hags & Hact & Htr).
        { intros id' Hin. destruct (Hkeys id') as [? ?]; [by right|].
          split; [|done]. apply elem_of_difference. split; [done|].
          intros ->%elem_of_singleton. done. }
        split_and!; [done| |].
        -- rewrite Hact, list_to_set_cons. by rewrite difference_difference_l_L.
        -- rewrite Htr, bind_cons. by rewrite <-app_assoc.
      * destruct IH as (n & id' & a' & w1 & w2 & Hn & Hget' & Hraise & Hags
                        & Hact & Htr).
        { intros id' Hin. destruct (Hkeys id') as [? ?]; [by right|].
          split; [|done]. apply elem_of_difference. split; [done|].
          intros ->%elem_of_singleton. done. }
        exists (S n), id', a', w1, w2. split_and!; try done.
        -- rewrite Hact. cbn [take]. rewrite list_to_set_cons.
           by rewrite difference_difference_l_L.
        -- rewrite Htr. cbn [take]. rewrite bind_cons.
           by rewrite <-!app_assoc.
    + exists 0%nat, id, a, (world s), w. cbn [take manager trace].
      split_and!; try done.
      * by rewrite ?list_to_set_nil, difference_empty_L.
Qed.


(** *** Exporting the states *)

Lemma get_states_loop_spec (items : list (string * A)) :
  ∀ s (states : gmap string V),
  match get_states_loop items states s with
  | (s', Returned states') =>
      manager s' = manager s
      ∧ dom states' = list_to_set items.*1 ∪ dom states
      ∧ ∀ id v, states' !! id = Some v →
          states !! id = Some v
          ∨ ∃ a w w', (id, a) ∈ items ∧ get_state a w = (w', Returned v)
  | (s', Raised e) =>
      ∃ id a w w', (id, a) ∈ items ∧ get_state a w = (w', Raised e)
  end.
Proof.
  induction items as [|[id a] items IH]; intros s states.
  - simpl. split_and!; [done| |by left].
    by rewrite (left_id_L ∅ (∪)).
  - cbn [get_states_loop]. unfold mbind at 1, M_bind at 1, await.
    destruct (get_state a (world s)) as [w [v|e]] eqn:Hstate.
    + match goal with |- context [get_states_loop items ?st ?s1] =>
        specialize (IH s1 st); destruct (get_states_loop items st s1)
          as [s' [states'|e]] end.
      * destruct IH as (Hm & Hdom & Hval). split_and!; [done| |].
        -- rewrite Hdom, dom_insert_L, fmap_cons, list_to_set_cons. simpl.
           by rewrite (assoc_L (∪)), (comm_L (∪) _ {[id]}).
        -- intros id' v' Hlook.
           destruct (Hval id' v' Hlook) as [Hold|(a' & w1 & w2 & Hin & Hget)].
           ++ destruct (decide (id = id')) as [->|Hne].
              ** rewrite lookup_insert_eq in Hold. simplify_eq.
                 right. exists a, (world s), w. split; [left|done].
              ** rewrite lookup_insert_ne in Hold by done. by left.
           ++ right. exists a', w1, w2. split; [by right|done].
      * destruct IH as (id' & a' & w1 & w2 & Hin & Hget).
        exists id', a', w1, w2. split; [by right|done].
    + exists id, a, (world s), w. split; [left|done].
Qed.

(** C8 (as amended). Whatever the active set is, [get_states] asks every
    registered agent for its state, in registry order.  When it returns, the
    keys of the mapping are exactly the registered identities, each mapped to
    a state that the agent registered under it exported; the manager is
    unchanged.  It raises only what some registered agent's [get_state()]
    raised. *)
Theorem get_states_covers_registry s :
  match get_states s with
  | (s', Returned states) =>
      dom states = list_to_set (registered (manager s))
      ∧ (∀ id v, states !! id = Some v →
           ∃ a w w', (id, a) ∈ agents (manager s)
                     ∧ get_state a w = (w', Returned v))
      ∧ manager s' = manager s
  | (s', Raised e) =>
      ∃ id a w w', (id, a) ∈ agents (manager s)
                   ∧ get_state a w = (w', Raised e)
  end.
Proof.
  unfold get_states, get_manager, mbind, M_bind.
  pose proof (get_states_loop_spec (agents (manager s)) s ∅) as Hloop.
  destruct (get_states_loop (agents (manager s)) ∅ s) as [s' [states|e]];
    [|done].
  destruct Hloop as (Hm & Hdom & Hval). split_and!; [| |done].
  - by rewrite Hdom, dom_empty_L, (right_id_L ∅ (∪)).
  - intros id v Hlook. destruct (Hval id v Hlook) as [Hold|?]; [|done].
    by rewrite lookup_empty in Hold.
Qed.

(** *** The invariant is kept *)

Lemma register_agent_well_formed s id a :
  well_formed (manager s) →
  well_formed (manager (exec (register_agent id a) s)).
Proof.
  intros [Hnodup Hact]. unfold exec, register_agent. unfold_M. simpl.
  destruct (dict_get (agents (manager s)) id) eqn:Hget; [done|]. simpl.
  unfold well_formed, registered in *. simpl. rewrite fmap_app. simpl. split.
  - apply NoDup_app. split_and!; [done| |apply NoDup_singleton].
    intros id' Hin ->%list_elem_of_singleton.
    apply dict_get_is_Some in Hin as [? ?]. congruence.
  - intros id' Hin. apply elem_of_app. left. by apply Hact.
Qed.

Lemma start_agent_well_formed s id :
  well_formed (manager s) →
  well_formed (manager (exec (start_agent id) s)).
Proof.
  intros [Hnodup Hact]. unfold exec.
  destruct (dict_get (agents (manager s)) id) as [a|] eqn:Hget.
  - rewrite (start_agent_registered s id a Hget).
    destruct (initialize a (world s)) as [w [[]|e]]; [|done].
    split; [done|]. simpl. intros id' [->%elem_of_singleton|?]%elem_of_union.
    + apply dict_get_is_Some. by eexists.
    + by apply Hact.
  - by rewrite start_agent_unknown.
Qed.

Lemma stop_agent_well_formed s id :
  well_formed (manager s) →
  well_formed (manager (exec (stop_agent id) s)).
Proof.
  intros [Hnodup Hact]. unfold exec.
  destruct (decide (id ∈ active_agents (manager s))) as [Hin|Hout].
  - destruct (proj2 (dict_get_is_Some _ _) (Hact id Hin)) as [a Hget].
    rewrite (stop_agent_active s id a Hin Hget).
    destruct (cleanup a (world s)) as [w [[]|e]]; [|done].
    split; [done|]. simpl. intros id' [? _]%elem_of_difference. by apply Hact.
  - by rewrite stop_agent_inactive.
Qed.

End properties.

(** *** The rest of the class *)

Lemma dict_get_app {X : Type} (d1 d2 : list (string * X)) key :
  dict_get (d1 ++ d2) key
  = match dict_get d1 key with
    | Some v => Some v
    | None => dict_get d2 key
    end.
Proof.
  induction d1 as [|[k v] d1 IH]; [done|]. simpl. by case_decide.
Qed.

Section control_properties.
Context {A W V : Type} `{!Agent A W V} `{!AgentControl A W V}.
Context (isoformat : Z → V).
Implicit Types (s : @machine A W V) (m : @agent_manager A V).
Implicit Types (id : string) (keys : list string).

Ltac unfold_M :=
  unfold mbind, M_bind, mret, M_ret, get_manager, put_manager, log_info,
    await, await_untraced, raise.

(** X12. [register_agent] of an identity that is already registered raises
    [ValueError] and changes nothing: the agent registered first stays.
    For a new identity it returns, the agent is the last of the registry
    and is what a lookup of the identity finds, every other identity looks
    up as before, and the active set is unchanged. *)
Theorem register_agent_once s id a :
  match dict_get (agents (manager s)) id with
  | Some first =>
      register_agent id a s
      = (s, Raised (ValueError ("Agent " +:+ id +:+ " already registered")))
  | None =>
      let '(s', r) := register_agent id a s in
      r = Returned tt
      ∧ agents (manager s') = agents (manager s) ++ [(id, a)]
      ∧ dict_get (agents (manager s')) id = Some a
      ∧ (∀ other, other ≠ id →
           dict_get (agents (manager s')) other
           = dict_get (agents (manager s)) other)
      ∧ active_agents (manager s') = active_agents (manager s)
      ∧ get_agent_count (manager s') = S (get_agent_count (manager s))
      ∧ world s' = world s
      ∧ trace s' = trace s ++ [LogInfo ("Registered agent: " +:+ id)]
  end.
Proof.
  unfold register_agent. unfold_M. simpl.
  destruct (dict_get (agents (manager s)) id) eqn:Hget; [done|]. simpl.
  split_and!; try done.
  - rewrite dict_get_app, Hget. simpl. by rewrite decide_True.
  - intros other Hne. rewrite dict_get_app. simpl.
    rewrite decide_False by done. by destruct (dict_get _ other).
  - unfold get_agent_count. simpl. rewrite length_app. simpl. lia.
Qed.

(** X13. Starting a registered, inactive agent and stopping it again,
    when its [initialize()] and then its [cleanup()] return, leaves the
    manager exactly as it was; the two calls were awaited once each, in
    that order. *)
Theorem start_stop_round_trip s id a w1 w2 :
  dict_get (agents (manager s)) id = Some a →
  id ∉ active_agents (manager s) →
  initialize a (world s) = (w1, Returned tt) →
  cleanup a w1 = (w2, Returned tt) →
  (start_agent id;; stop_agent id) s
  = ({| manager := manager s; world := w2;
        trace := trace s ++ started id ++ stopped id |}, Returned tt).
Proof.
  intros Hget Hout Hinit Hclean. unfold mbind at 1, M_bind at 1.
  rewrite (start_agent_registered s id a Hget), Hinit.
  erewrite stop_agent_active; [|set_solver|done]. cbn [world manager trace].
  rewrite Hclean. cbn [agents active_agents agent_metrics].
  rewrite <-app_assoc. f_equal. f_equal.
  destruct (manager s) as [ags act met]; simpl in *. f_equal.
  rewrite difference_union_distr_l_L, difference_diag_L, (left_id_L ∅ (∪)).
  apply difference_disjoint_L. by apply disjoint_singleton_r.
Qed.

(** X14. [process_event] is a silent no-op for an event without an agent
    identity, with the empty identity, or with an identity that is not
    registered, whatever its type: it returns and nothing changes (where
    [start_agent] of an unregistered identity raises [ValueError]). *)
Theorem process_event_ignores_unknown s ev :
  event_agent_id ev = None
  ∨ event_agent_id ev = Some ""
  ∨ (∃ id, event_agent_id ev = Some id
           ∧ id ∉ registered (manager s)) →
  process_event ev s = (s, Returned tt).
Proof.
  intros Hunknown. unfold process_event. unfold_M. simpl.
  destruct (event_agent_id ev) as [id|]; [|done].
  rewrite decide_True; [done|].
  destruct Hunknown as [?|[[= <-]|(id' & [= <-] & Hno)]]; [done|by left|].
  right. destruct (dict_get (agents (manager s)) id) eqn:Hget; [|done].
  exfalso. apply Hno, dict_get_is_Some. by eexists.
Qed.

(** X15. On a manager that keeps its invariants, whatever [process_event]
    raises was raised by an agent's [initialize()], [cleanup()] or
    [process_cycle()]: the manager itself raises nothing for an event. *)
Theorem process_event_raises_agent_errors s ev s' e :
  well_formed (manager s) →
  process_event ev s = (s', Raised e) →
  ∃ id a w w',
    dict_get (agents (manager s)) id = Some a
    ∧ (initialize a w = (w', Raised e)
       ∨ cleanup a w = (w', Raised e)
       ∨ process_cycle a w = (w', Raised e)).
Proof.
  intros [_ Hact]. unfold process_event. unfold mbind at 1, M_bind at 1.
  unfold get_manager at 1. cbn [manager].
  destruct (event_agent_id ev) as [id|]; [|done].
  case_decide as Hguard; [done|].
  destruct (dict_get (agents (manager s)) id) as [a|] eqn:Hget; [|tauto].
  repeat case_decide.
  - rewrite (start_agent_registered s id a Hget).
    destruct (initialize a (world s)) as [w [[]|e']] eqn:Hinit; [done|].
    intros [= <- <-]. exists id, a, (world s), w. split; [done|by left].
  - destruct (decide (id ∈ active_agents (manager s))) as [Hin|Hout].
    + rewrite (stop_agent_active s id a Hin Hget).
      destruct (cleanup a (world s)) as [w [[]|e']] eqn:Hclean; [done|].
      intros [= <- <-]. exists id, a, (world s), w.
      split; [done|right; by left].
    + by rewrite stop_agent_inactive.
  - unfold await_untraced.
    destruct (process_cycle a (world s)) as [w [[]|e']] eqn:Hcycle; [done|].
    intros [= <- <-]. exists id, a, (world s), w.
    split; [done|right; by right].
  - done.
Qed.

Lemma for_each_cons {X : Type} (body : X → @M A W V unit) x l s :
  for_each body (x :: l) s
  = match body x s with
    | (s1, Returned _) => for_each body l s1
    | (s1, Raised e) => (s1, Raised e)
    end.
Proof. done. Qed.

(** The loop shared by [restore_state] and [update_configuration]. *)
Lemma for_each_registered (f : A → V → W → W * outcome unit)
    (items : list (string * V)) : ∀ s,
  let body := λ item : string * V,
    m ← get_manager;
    match dict_get (agents m) item.1 with
    | Some agent => await_untraced (f agent item.2)
    | None => mret tt
    end in
  for_each body items s
  = for_each body
      (filter (λ item, item.1 ∈ registered (manager s)) items) s
  ∧ manager (for_each body items s).1 = manager s
  ∧ trace (for_each body items s).1 = trace s.
Proof.
  intros s body. revert s.
  assert (∀ id v s,
    body (id, v) s
    = match dict_get (agents (manager s)) id with
      | Some a =>
          let '(w, r) := f a v (world s) in
          ({| manager := manager s; world := w; trace := trace s |}, r)
      | None => (s, Returned tt)
      end) as Hbody.
  { intros id v s. unfold body. unfold_M. simpl.
    by destruct (dict_get (agents (manager s)) id). }
  induction items as [|[id v] items IH]; intros s; [done|].
  rewrite filter_cons. cbn [fst].
  destruct (dict_get (agents (manager s)) id) as [a|] eqn:Hget.
  - rewrite decide_True by (apply dict_get_is_Some; by eexists).
    rewrite !for_each_cons, Hbody, Hget.
    destruct (f a v (world s)) as [w [[]|e]]; [|done].
    match goal with |- context [for_each body items ?s1] =>
      destruct (IH s1) as (Heq & Hm & Ht) end.
    cbn [manager trace] in *. by rewrite <-Heq.
  - rewrite decide_False
      by (intros [? ?]%dict_get_is_Some; congruence).
    rewrite for_each_cons, Hbody, Hget. apply IH.
Qed.

(** X16. [restore_state] imports a state into each registered agent the
    mapping names, in the mapping's order, and skips the identities that
    are not registered as if the mapping did not have them; it changes
    neither the manager nor the log. *)
Theorem restore_state_skips_unregistered (states : list (string * V)) s :
  restore_state states s
  = restore_state
      (filter (λ item, item.1 ∈ registered (manager s)) states) s
  ∧ manager (restore_state states s).1 = manager s
  ∧ trace (restore_state states s).1 = trace s.
Proof. apply (for_each_registered agent_restore_state). Qed.

(** X17. [update_configuration] hands each registered agent the mapping
    names its configuration and skips the identities that are not
    registered; it changes neither the manager nor the log. *)
Theorem update_configuration_skips_unregistered
    (config : list (string * V)) s :
  update_configuration config s
  = update_configuration
      (filter (λ item, item.1 ∈ registered (manager s)) config) s
  ∧ manager (update_configuration config s).1 = manager s
  ∧ trace (update_configuration config s).1 = trace s.
Proof. apply (for_each_registered agent_update_configuration). Qed.

(** *** The invariants along any run *)

Lemma well_formed_same m m' :
  agents m' = agents m →
  (∀ id, id ∈ active_agents m' → id ∈ active_agents m ∨ id ∈ registered m) →
  well_formed m → well_formed m'.
Proof.
  intros Hags Hact [Hnodup Hsub]. unfold well_formed, registered in *.
  rewrite Hags. split; [done|]. intros id [?|?]%Hact; auto.
Qed.

Lemma start_agents_well_formed s :
  well_formed (manager s) → well_formed (manager (exec start_agents s)).
Proof.
  intros Hwf. unfold exec, start_agents, log_info, get_manager, mbind, M_bind.
  cbn [manager].
  match goal with |- context [for_each start_agent ?keys ?s0] =>
    pose proof (for_each_start_agent keys s0) as Hloop;
    destruct (for_each start_agent keys s0) as [s' [[]|e]] end;
    cbn [manager trace fst] in *.
  - destruct Hloop as (Hags & Hact & _); [done|].
    apply (well_formed_same (manager s)); [done| |done].
    intros id. rewrite Hact, elem_of_union, elem_of_list_to_set. tauto.
  - destruct Hloop as (n & ? & ? & ? & ? & _ & _ & _ & Hags & Hact & _);
      [done|].
    apply (well_formed_same (manager s)); [done| |done].
    intros id. rewrite Hact, elem_of_union, elem_of_list_to_set.
    intros [Hin|?]; [right|by left].
    eapply elem_of_sublist; [done|apply sublist_take].
Qed.

Lemma stop_agents_well_formed s :
  well_formed (manager s) → well_formed (manager (exec stop_agents s)).
Proof.
  intros Hwf. pose proof Hwf as [_ Hsub].
  unfold exec, stop_agents, log_info, get_manager, mbind, M_bind.
  cbn [manager].
  match goal with |- context [for_each stop_agent ?keys ?s0] =>
    pose proof (for_each_stop_agent keys s0 (NoDup_elements _)) as Hloop;
    destruct (for_each stop_agent keys s0) as [s' [[]|e]] end;
    cbn [manager trace fst] in *.
  - destruct Hloop as (Hags & Hact & _).
    { intros id Hin%elem_of_elements. auto. }
    apply (well_formed_same (manager s)); [done| |done].
    intros id. rewrite Hact, elem_of_difference. tauto.
  - destruct Hloop as (n & ? & ? & ? & ? & _ & _ & _ & Hags & Hact & _).
    { intros id Hin%elem_of_elements. auto. }
    apply (well_formed_same (manager s)); [done| |done].
    intros id. rewrite Hact, elem_of_difference. tauto.
Qed.

Lemma get_states_loop_manager (items : list (string * A)) :
  ∀ s (states : gmap string V),
  manager (get_states_loop items states s).1 = manager s.
Proof.
  induction items as [|[id a] items IH]; intros s states; [done|].
  cbn [get_states_loop]. unfold mbind at 1, M_bind at 1, await.
  destruct (get_state a (world s)) as [w [v|e]]; [|done].
  by rewrite IH.
Qed.

Lemma process_event_well_formed s ev :
  well_formed (manager s) →
  well_formed (manager (exec (process_event ev) s)).
Proof.
  intros Hwf. unfold exec, process_event. unfold mbind at 1, M_bind at 1.
  unfold get_manager at 1. cbn [manager].
  destruct (event_agent_id ev) as [id|]; [|done].
  case_decide; [done|].
  destruct (dict_get (agents (manager s)) id) as [a|] eqn:Hget; [|done].
  repeat case_decide.
  - by apply start_agent_well_formed.
  - by apply stop_agent_well_formed.
  - unfold await_untraced. by destruct (process_cycle a (world s)).
  - done.
Qed.

Lemma run_command_well_formed c s :
  well_formed (manager s) →
  well_formed (manager (run_command isoformat c s)).
Proof.
  intros Hwf. destruct c; cbn [run_command].
  - by apply register_agent_well_formed.
  - by apply start_agent_well_formed.
  - by apply stop_agent_well_formed.
  - by apply start_agents_well_formed.
  - by apply stop_agents_well_formed.
  - by apply process_event_well_formed.
  - unfold exec, get_states, get_manager, mbind, M_bind.
    by rewrite get_states_loop_manager.
  - unfold exec, restore_state.
    by destruct (for_each_registered agent_restore_state states s)
      as (_ & -> & _).
  - unfold exec, update_configuration.
    by destruct (for_each_registered agent_update_configuration config s)
      as (_ & -> & _).
  - by apply (well_formed_same (manager s)); [..|left|].
Qed.

(** X18. Whatever a caller does with a fresh manager, in any order and
    going on after exceptions, the manager keeps its invariants: every
    identity is registered once and every active identity is registered;
    so the active count never exceeds the agent count. *)
Theorem manager_invariants_kept (cs : list (@command A V)) (w : W) :
  let m := manager (run_commands isoformat (boot w) cs) in
  well_formed m
  ∧ (get_active_agent_count m ≤ get_agent_count m)%nat.
Proof.
  cbv zeta.
  assert (well_formed (manager (run_commands isoformat (boot w) cs))) as Hwf.
  { unfold run_commands. induction cs as [|c cs IH] using rev_ind.
    - split; [constructor|]. intros id. simpl. set_solver.
    - rewrite foldl_snoc. by apply run_command_well_formed. }
  split; [done|]. destruct Hwf as [Hnodup Hsub].
  unfold get_active_agent_count, get_agent_count, registered in *.
  rewrite <-(length_fmap fst), <-(size_list_to_set (C := gset string))
    by done.
  apply subseteq_size. intros id Hin. apply elem_of_list_to_set. auto.
Qed.

(** *** The metrics *)

Lemma agent_statuses_loop_lookup m (items : list (string * A)) :
  ∀ (statuses : gmap string (@agent_status V)) id,
  agent_statuses_loop m items statuses !! id
  = if decide (id ∈ items.*1)
    then Some {| status_active := bool_decide (id ∈ active_agents m);
                 status_last_update :=
                   default ∅ (agent_metrics m !! id) !! "last_update" |}
    else statuses !! id.
Proof.
  induction items as [|[k a] items IH]; intros statuses id; [done|].
  cbn [agent_statuses_loop]. rewrite IH, fmap_cons. cbn [fst].
  destruct (decide (id ∈ items.*1)) as [Hin|Hout].
  - rewrite decide_True; [done|by right].
  - destruct (decide (k = id)) as [->|Hne].
    + rewrite lookup_insert_eq. rewrite decide_True; [done|left].
    + rewrite lookup_insert_ne by done. rewrite decide_False; [done|].
      intros [?|?]%elem_of_cons; congruence.
Qed.

(** X19. After [update_metrics(agent_id, metrics)], [get_metrics] reports
    the agent count, the active count, and one status per registered
    identity, none for any other: the active flag, and as last update the
    clock reading of [update_metrics] for that identity (whatever
    ["last_update"] the metrics carried) and what was recorded before for
    the others.  Metrics recorded for an identity that is not registered
    are not reported. *)
Theorem update_metrics_reported s id (metrics : gmap string V) now :
  let s' := exec (update_metrics isoformat id metrics now) s in
  ∃ report,
    get_metrics s' = (s', Returned report)
    ∧ total_agents report = length (agents (manager s))
    ∧ active_agents_count report = size (active_agents (manager s))
    ∧ ∀ id',
        agent_statuses report !! id'
        = if decide (id' ∈ registered (manager s))
          then Some
            {| status_active :=
                 bool_decide (id' ∈ active_agents (manager s));
               status_last_update :=
                 if decide (id' = id) then Some (isoformat now)
                 else default ∅ (agent_metrics (manager s) !! id')
                        !! "last_update" |}
          else None.
Proof.
  cbv zeta. unfold exec, update_metrics, get_metrics. unfold_M. simpl.
  eexists. split; [done|]. simpl. split_and!; [done..|].
  intros id'. rewrite agent_statuses_loop_lookup. simpl.
  unfold registered. destruct (decide (id' ∈ (agents (manager s)).*1));
    [|done].
  f_equal. f_equal. destruct (decide (id' = id)) as [->|Hne].
  - rewrite lookup_insert_eq. simpl. by rewrite lookup_insert_eq.
  - by rewrite lookup_insert_ne.
Qed.

End control_properties.

(** *** On the scripted agents *)

Import Scenario.


(** C5, counterexample. ["a"] is registered and active after one call of
    [initialize()]; [start_agent("a")] awaits [initialize()] again: the
    world counts two calls. *)
Lemma start_agent_initializes_again :
  registered (manager running) = ["a"]
  ∧ elements (active_agents (manager running)) = ["a"]
  ∧ world running = 1%nat
  ∧ start_agent "a" running
    = ({| manager := manager running; world := 2%nat;
          trace := trace running
                   ++ [Await "a" Initialize; LogInfo "Started agent: a"] |},
       Returned tt).
Proof. split_and!; by vm_compute. Qed.


Lemma stuck_pair_a_active : "a" ∈ active_agents (manager stuck_pair).
Proof.
  apply elem_of_elements.
  assert (elements (active_agents (manager stuck_pair)) = ["a"; "b"])
    as -> by (by vm_compute).
  left.
Qed.

Lemma running_a_active : "a" ∈ active_agents (manager running).
Proof.
  apply elem_of_elements.
  assert (elements (active_agents (manager running)) = ["a"])
    as -> by (by vm_compute).
  left.
Qed.


(** C5, witness: ["a"], registered and active, is started again. *)
Lemma start_agent_again_witness :
  dict_get (agents (manager running)) "a" = Some steady
  ∧ "a" ∈ active_agents (manager running)
  ∧ (let '(w, r) := initialize steady (world running) in
     let '(s', r') := start_agent "a" running in
     r' = r
     ∧ manager s' = manager running
     ∧ world s' = w
     ∧ trace s' = trace running ++ Await "a" Initialize ::
         match r with
         | Returned _ => [LogInfo ("Started agent: " +:+ "a")]
         | Raised _ => []
         end).
Proof.
  exact (conj eq_refl (conj running_a_active
    (start_agent_again running "a" steady eq_refl running_a_active))).
Defined.

(** C10, witness: ["a"] is active and its [cleanup()] raises. *)
Lemma stop_agent_cleanup_outcome_witness :
  "a" ∈ active_agents (manager stuck_pair)
  ∧ dict_get (agents (manager stuck_pair)) "a" = Some failing_cleanup
  ∧ (let '(w, r) := cleanup failing_cleanup (world stuck_pair) in
     let '(s', r') := stop_agent "a" stuck_pair in
     r' = r
     ∧ world s' = w
     ∧ match r with
       | Raised e =>
           manager s' = manager stuck_pair
           ∧ "a" ∈ active_agents (manager s')
           ∧ trace s' = trace stuck_pair ++ [Await "a" Cleanup]
       | Returned _ =>
           agents (manager s') = agents (manager stuck_pair)
           ∧ active_agents (manager s')
             = active_agents (manager stuck_pair) ∖ {["a"]}
           ∧ trace s' = trace stuck_pair ++ stopped "a"
       end).
Proof.
  exact (conj stuck_pair_a_active (conj eq_refl
    (stop_agent_cleanup_outcome stuck_pair "a" failing_cleanup
       stuck_pair_a_active eq_refl))).
Defined.

(** C8, counterexample. ["a"] is registered and not active, and
    [get_states] returns a mapping with the key ["a"]. *)
Lemma get_states_includes_inactive :
  registered (manager registered_only) = ["a"]
  ∧ active_agents (manager registered_only) = ∅
  ∧ (get_states registered_only).2 = Returned {["a" := 7]}.
Proof. split_and!; by vm_compute. Qed.

Lemma flaky_pair_well_formed : well_formed (manager flaky_pair).
Proof.
  assert (registered (manager flaky_pair) = ["a"; "b"]) as Hreg
    by (by vm_compute).
  split.
  - rewrite Hreg. apply (bool_decide_unpack _). by vm_compute.
  - intros id Hin%elem_of_elements. rewrite Hreg.
    assert (elements (active_agents (manager flaky_pair)) = [])
      as Hact by (by vm_compute).
    rewrite Hact in Hin. by apply elem_of_nil in Hin.
Qed.

Lemma registered_only_a_inactive :
  "a" ∉ active_agents (manager registered_only).
Proof.
  intros Hin%elem_of_elements.
  assert (elements (active_agents (manager registered_only)) = [])
    as Hact by (by vm_compute).
  rewrite Hact in Hin. by apply elem_of_nil in Hin.
Qed.

(** X13, witness: ["a"], registered and not yet started. *)
Lemma start_stop_round_trip_witness :
  dict_get (agents (manager registered_only)) "a" = Some steady
  ∧ ("a" ∉ active_agents (manager registered_only))
  ∧ initialize steady (world registered_only) = (1%nat, Returned tt)
  ∧ cleanup steady 1%nat = (1%nat, Returned tt)
  ∧ (start_agent "a";; stop_agent "a") registered_only
    = ({| manager := manager registered_only; world := 1%nat;
          trace := trace registered_only ++ started "a" ++ stopped "a" |},
       Returned tt).
Proof.
  exact (conj eq_refl (conj registered_only_a_inactive (conj eq_refl
    (conj eq_refl
      (start_stop_round_trip registered_only "a" steady 1%nat 1%nat
         eq_refl registered_only_a_inactive eq_refl eq_refl))))).
Defined.

(** X14, witness: a start event for ["ghost"], which is not registered. *)
Lemma process_event_ignores_unknown_witness :
  let ev := AgentEvent (Some "start") (Some "ghost") in
  (event_agent_id ev = None
   ∨ event_agent_id ev = Some ""
   ∨ (∃ id, event_agent_id ev = Some id
            ∧ id ∉ registered (manager registered_only)))
  ∧ process_event ev registered_only = (registered_only, Returned tt).
Proof.
  assert (event_agent_id (AgentEvent (Some "start") (Some "ghost")) = None
    ∨ event_agent_id (AgentEvent (Some "start") (Some "ghost")) = Some ""
    ∨ (∃ id, event_agent_id (AgentEvent (Some "start") (Some "ghost"))
             = Some id
             ∧ id ∉ registered (manager registered_only))) as Hunknown.
  { right. right. exists "ghost". split; [done|].
    assert (registered (manager registered_only) = ["a"]) as ->
      by (by vm_compute).
    intros [=]%list_elem_of_singleton. }
  exact (conj Hunknown
    (process_event_ignores_unknown registered_only _ Hunknown)).
Defined.

(** X15, witness: a start event for ["a"], whose [initialize()] raises. *)
Lemma process_event_raises_agent_errors_witness :
  let ev := AgentEvent (Some "start") (Some "a") in
  let s' := (process_event ev flaky_pair).1 in
  well_formed (manager flaky_pair)
  ∧ process_event ev flaky_pair = (s', Raised (AgentError "initialize"))
  ∧ ∃ id a w w',
      dict_get (agents (manager flaky_pair)) id = Some a
      ∧ (initialize a w = (w', Raised (AgentError "initialize"))
         ∨ cleanup a w = (w', Raised (AgentError "initialize"))
         ∨ process_cycle a w = (w', Raised (AgentError "initialize"))).
Proof.
  assert (process_event (AgentEvent (Some "start") (Some "a")) flaky_pair
          = ((process_event (AgentEvent (Some "start") (Some "a"))
                flaky_pair).1,
             Raised (AgentError "initialize"))) as Hraise
    by (by vm_compute).
  exact (conj flaky_pair_well_formed (conj Hraise
    (process_event_raises_agent_errors flaky_pair _ _ _
       flaky_pair_well_formed Hraise))).
Defined.

End AgentManagerProperties.

(** ** The composition root *)

Module FrameworkProperties.
Import AgentManager Framework.
Section properties.
Context {A W V : Type} `{!Agent A W V} `{!AgentControl A W V}.
Context (empty_dict empty_list : V).
Implicit Types (fw : @framework A W V) (p : @progress_tracker V).

Lemma get_states_report (s : @machine A W V) :
  match get_states s with
  | (s', Returned states) =>
      dom states = list_to_set (registered (manager s))
      ∧ manager s' = manager s
  | (s', Raised e) =>
      (∃ id a w w', (id, a) ∈ agents (manager s)
                    ∧ get_state a w = (w', Raised e))
      ∧ manager s' = manager s
  end.
Proof.
  pose proof (AgentManagerProperties.get_states_loop_manager
                (agents (manager s)) s ∅) as Hm.
  pose proof (AgentManagerProperties.get_states_loop_spec
                (agents (manager s)) s ∅) as Hloop.
  unfold get_states, get_manager, mbind, M_bind.
  destruct (get_states_loop (agents (manager s)) ∅ s) as [s' [states|e]].
  - destruct Hloop as (_ & Hdom & _). split; [|done].
    by rewrite Hdom, dom_empty_L, (right_id_L ∅ (∪)).
  - done.
Qed.

Lemma progress_restore_get p :
  progress_restore_state empty_dict empty_list (progress_get_state p) = p.
Proof.
  destruct p as [pm ph pc]. unfold progress_restore_state, progress_get_state.
  cbn [progress_metrics progress_history progress_config].
  rewrite lookup_insert_eq.
  rewrite !(lookup_insert_ne _ "config") by done.
  rewrite lookup_insert_eq, lookup_insert_ne, lookup_singleton_eq by done.
  done.
Qed.

Lemma progress_get_state_nonempty p : progress_get_state p ≠ ∅.
Proof.
  unfold progress_get_state. intros Hempty.
  apply (f_equal (λ m : gmap string V, m !! "config")) in Hempty.
  by rewrite lookup_insert_eq, lookup_empty in Hempty.
Qed.

(** X20. What [ProgressTracker.get_state] exports, [restore_state] takes
    back: the tracker restored from its own state is the tracker.  A key
    the state lacks is restored to its empty value: [{}] for the metrics
    and the configuration, [[]] for the history. *)
Theorem progress_state_round_trip p :
  progress_restore_state empty_dict empty_list (progress_get_state p) = p
  ∧ progress_restore_state empty_dict empty_list ∅
    = ProgressTracker empty_dict empty_list empty_dict
  ∧ progress_restore_state empty_dict empty_list
      (delete "history" (progress_get_state p))
    = ProgressTracker (progress_metrics p) empty_list (progress_config p).
Proof.
  split_and!; [apply progress_restore_get|done|].
  unfold progress_restore_state, progress_get_state.
  rewrite lookup_delete_eq, !lookup_delete_ne by done.
  rewrite lookup_insert_eq.
  rewrite !(lookup_insert_ne _ "config"), lookup_insert_ne by done.
  by rewrite lookup_singleton_eq.
Qed.

Lemma save_states_all_or_nothing_manager fw now_agents now_progress :
  manager (fw_agent_manager (save_states fw now_agents now_progress))
  = manager (fw_agent_manager fw).
Proof.
  unfold save_states.
  pose proof (get_states_report (fw_agent_manager fw)) as Hstates.
  destruct (get_states (fw_agent_manager fw)) as [am [agent_states|e]];
    by destruct Hstates as (_ & ?).
Qed.


(** X22. [stop] checkpoints only after a clean stop.  On a manager that
    keeps its invariants: if [stop] raises, the exception is the one an
    active agent's [cleanup()] raised, the store is untouched, and the
    failure is logged; if it returns, no agent is active any more, the
    checkpoint of [save_states] was attempted on the stopped manager, and
    the success is logged last, whether or not the checkpoint saved
    anything. *)
Theorem stop_checkpoints_after_clean_stop fw now_agents now_progress :
  well_formed (manager (fw_agent_manager fw)) →
  let '(fw', r) := stop fw now_agents now_progress in
  match r with
  | Raised e =>
      (∃ id a w w',
         id ∈ active_agents (manager (fw_agent_manager fw))
         ∧ dict_get (agents (manager (fw_agent_manager fw))) id = Some a
         ∧ cleanup a w = (w', Raised e))
      ∧ fw_state_manager fw' = fw_state_manager fw
      ∧ fw_progress_tracker fw' = fw_progress_tracker fw
      ∧ fw_log fw' = fw_log fw ++ [Info "Stopping Skylark Framework";
                                   Error "Framework stop failed" e]
  | Returned _ =>
      active_agents (manager (fw_agent_manager fw')) = ∅
      ∧ ∃ stopped_manager,
          stop_agents (fw_agent_manager fw) = (stopped_manager, Returned tt)
          ∧ let saved :=
              save_states
                {| fw_agent_manager := stopped_manager;
                   fw_state_manager := fw_state_manager fw;
                   fw_progress_tracker := fw_progress_tracker fw;
                   fw_log := fw_log fw ++ [Info "Stopping Skylark Framework"] |}
                now_agents now_progress in
            fw_state_manager fw' = fw_state_manager saved
            ∧ fw_log fw'
              = fw_log saved ++ [Info "Framework stopped successfully"]
  end.
Proof.
  intros [_ Hsub]. unfold stop.
  pose proof (AgentManagerProperties.for_each_stop_agent
    (elements (active_agents (manager (fw_agent_manager fw))))
    {| manager := manager (fw_agent_manager fw);
       world := world (fw_agent_manager fw);
       trace := trace (fw_agent_manager fw) ++ [LogInfo "Stopping agents"] |}
    (NoDup_elements _)) as Hloop.
  unfold stop_agents, log_info, get_manager, mbind, M_bind in *.
  cbn [manager] in *.
  match goal with |- context [for_each stop_agent ?keys ?s0] =>
    destruct (for_each stop_agent keys s0) as [am [[]|e]] end.
  - destruct Hloop as (Hags & Hact & _).
    { intros id Hin%elem_of_elements. auto. }
    cbn [fw_agent_manager fw_state_manager fw_log].
    split.
    + pose proof (save_states_all_or_nothing_manager
        {| fw_agent_manager := am;
           fw_state_manager := fw_state_manager fw;
           fw_progress_tracker := fw_progress_tracker fw;
           fw_log := fw_log fw ++ [Info "Stopping Skylark Framework"] |}
        now_agents now_progress) as Hm.
      cbn [fw_agent_manager] in Hm. rewrite Hm, Hact.
      rewrite list_to_set_elements_L. apply difference_diag_L.
    + by exists am.
  - destruct Hloop as (n & id & a & w & w' & Hn & Hget & Hraise & _).
    { intros id Hin%elem_of_elements. auto. }
    cbn [fw_state_manager fw_progress_tracker fw_log].
    split_and!; [|done|done|by rewrite <-app_assoc].
    exists id, a, w, w'. split_and!; [|done..].
    apply elem_of_elements. by eapply list_elem_of_lookup_2.
Qed.

(** X23. [load_states] never raises and never writes to the store or to
    the registry.  When the store holds a tracker's state under
    ["progress"], the tracker is restored to it, unless importing the
    saved agent states raised: then the tracker is left as it was and the
    failure is logged. *)
Theorem load_states_restores_progress fw p :
  StateManager.load_state (fw_state_manager fw) "progress"
  = Some (progress_get_state p) →
  let fw' := load_states empty_dict empty_list fw in
  fw_state_manager fw' = fw_state_manager fw
  ∧ manager (fw_agent_manager fw') = manager (fw_agent_manager fw)
  ∧ ((fw_progress_tracker fw' = p ∧ fw_log fw' = fw_log fw)
     ∨ (∃ e agent_states,
          StateManager.load_state (fw_state_manager fw) "agents"
          = Some agent_states
          ∧ agent_states ≠ ∅
          ∧ (restore_state (map_to_list agent_states)
               (fw_agent_manager fw)).2 = Raised e
          ∧ fw_progress_tracker fw' = fw_progress_tracker fw
          ∧ fw_log fw' = fw_log fw ++ [Error "Failed to load states" e])).
Proof.
  intros Hprogress. cbv zeta. unfold load_states. rewrite Hprogress.
  rewrite (decide_False (P := progress_get_state p = ∅))
    by apply progress_get_state_nonempty.
  rewrite progress_restore_get.
  destruct (StateManager.load_state (fw_state_manager fw) "agents")
    as [agent_states|]; [|by split_and!; [..|left]].
  case_decide as Hempty; [by split_and!; [..|left]|].
  destruct (AgentManagerProperties.for_each_registered agent_restore_state
              (map_to_list agent_states) (fw_agent_manager fw))
    as (_ & Hm & _).
  fold (restore_state (map_to_list agent_states)) in Hm.
  destruct (restore_state (map_to_list agent_states) (fw_agent_manager fw))
    as [am [[]|e]] eqn:Hrestore; cbn [fst] in Hm;
    cbn [fw_agent_manager fw_state_manager fw_progress_tracker fw_log].
  - by split_and!; [..|left].
  - split_and!; [done..|]. right. exists e, agent_states.
    by rewrite Hrestore.
Qed.

End properties.

(** *** On the framework around the scripted agents *)

Import Scenario.

Lemma running_well_formed : well_formed (manager running).
Proof.
  assert (registered (manager running) = ["a"]) as Hreg by (by vm_compute).
  split.
  - rewrite Hreg. apply (bool_decide_unpack _). by vm_compute.
  - intros id Hin%elem_of_elements. rewrite Hreg.
    assert (elements (active_agents (manager running)) = ["a"])
      as Hact by (by vm_compute).
    by rewrite Hact in Hin.
Qed.

(** X22, witness: the framework in which ["a"] runs is stopped. *)
Lemma stop_checkpoints_after_clean_stop_witness :
  well_formed (manager (fw_agent_manager running_framework))
  ∧ (let '(fw', r) := stop running_framework 1500000 1600000 in
     match r with
     | Raised e =>
         (∃ id a w w',
            id ∈ active_agents (manager (fw_agent_manager running_framework))
            ∧ dict_get (agents (manager (fw_agent_manager running_framework)))
                id = Some a
            ∧ cleanup a w = (w', Raised e))
         ∧ fw_state_manager fw' = fw_state_manager running_framework
         ∧ fw_progress_tracker fw' = fw_progress_tracker running_framework
         ∧ fw_log fw'
           = fw_log running_framework
             ++ [Info "Stopping Skylark Framework";
                 Error "Framework stop failed" e]
     | Returned _ =>
         active_agents (manager (fw_agent_manager fw')) = ∅
         ∧ ∃ stopped_manager,
             stop_agents (fw_agent_manager running_framework)
             = (stopped_manager, Returned tt)
             ∧ let saved :=
                 save_states
                   {| fw_agent_manager := stopped_manager;
                      fw_state_manager := fw_state_manager running_framework;
                      fw_progress_tracker :=
                        fw_progress_tracker running_framework;
                      fw_log := fw_log running_framework
                                ++ [Info "Stopping Skylark Framework"] |}
                   1500000 1600000 in
               fw_state_manager fw' = fw_state_manager saved
               ∧ fw_log fw'
                 = fw_log saved ++ [Info "Framework stopped successfully"]
     end).
Proof.
  exact (conj running_well_formed
    (stop_checkpoints_after_clean_stop running_framework 1500000 1600000
       running_well_formed)).
Defined.

(** X23, witness: the framework that saved its states loads them. *)
Lemma load_states_restores_progress_witness :
  let p := ProgressTracker 10 20 30 in
  StateManager.load_state (fw_state_manager saved_framework) "progress"
  = Some (progress_get_state p)
  ∧ (let fw' := load_states 0 0 saved_framework in
     fw_state_manager fw' = fw_state_manager saved_framework
     ∧ manager (fw_agent_manager fw')
       = manager (fw_agent_manager saved_framework)
     ∧ ((fw_progress_tracker fw' = p
         ∧ fw_log fw' = fw_log saved_framework)
        ∨ (∃ e agent_states,
             StateManager.load_state (fw_state_manager saved_framework)
               "agents" = Some agent_states
             ∧ agent_states ≠ ∅
             ∧ (restore_state (map_to_list agent_states)
                  (fw_agent_manager saved_framework)).2 = Raised e
             ∧ fw_progress_tracker fw'
               = fw_progress_tracker saved_framework
             ∧ fw_log fw'
               = fw_log saved_framework
                 ++ [Error "Failed to load states" e]))).
Proof.
  assert (StateManager.load_state (fw_state_manager saved_framework)
            "progress"
          = Some (progress_get_state (ProgressTracker 10 20 30))) as Hsaved
    by (by vm_compute).
  exact (conj Hsaved
    (load_states_restores_progress 0 0 saved_framework _ Hsaved)).
Defined.

End FrameworkProperties.
